(** * PhoenixHosting: the panel's command dispatcher and the process supervisor

    A shallow embedding of two modules of the repository:

    - [Panel]: [phoenix-panel/js/database.js] (with the configuration flags of
      [firebase-config.js] and [getCurrentUser] of [auth.js]), the client of
      the shared real-time store;
    - [Supervisor]: the [ServerManager] class that owns the map from server
      ids to spawned processes;
    - [History], [Display], [Auth], [Listeners]: the command history, the
      formatting helpers, the formatted user and the listener registry of
      the panel and the web client;
    - [Lifecycle], [Routes]: the supervisor over sequences of calls and
      events, and the backend routes that call it.

    JavaScript exceptions become the [Throw] constructor of [result]; the
    remote store, the clock, the operating system and the timers are explicit
    fields of a world record that every operation threads through. *)

From stdpp Require Import gmap strings list fin_maps pretty sorting.
From Stdlib Require Import ZArith Ascii String.

Local Open Scope string_scope.

(** ** JavaScript values and outcomes shared by both modules *)

(** The values a field read from the schemaless store can hold, as far as the
    code inspects them: it only tests truthiness and strict equality with
    [true]. *)
Inductive JsVal :=
  | JUndefined
  | JNull
  | JBool (b : bool)
  | JNum (n : Z)
  | JStr (s : string)
  | JObject.

#[global] Instance JsVal_eq_dec : EqDecision JsVal.
Proof. solve_decision. Defined.

(** [ToBoolean] of the language. *)
Definition truthy (v : JsVal) : bool :=
  match v with
  | JUndefined | JNull => false
  | JBool b => b
  | JNum n => negb (n =? 0)%Z
  | JStr s => negb (bool_decide (s = ""))
  | JObject => true
  end.

(** [v && b] where the right operand is a boolean expression: the left
    operand itself when it is falsy. *)
Definition js_and (v : JsVal) (b : bool) : JsVal :=
  if truthy v then JBool b else v.

(** [v === true]. *)
Definition strictly_true (v : JsVal) : bool := bool_decide (v = JBool true).

(** A call either returns or throws [new Error(msg)]. *)
Inductive result (A : Type) :=
  | Ok (a : A)
  | Throw (msg : string).
Arguments Ok {A} a.
Arguments Throw {A} msg.

(** [Array.prototype.join]. *)
Fixpoint join (sep : string) (l : list string) : string :=
  match l with
  | [] => ""
  | [x] => x
  | x :: rest => x ++ sep ++ join sep rest
  end.

(** [String.prototype.split] with a one-character separator: every
    occurrence of the separator cuts, so the result is never empty and two
    adjacent separators give an empty piece. *)
Fixpoint split (sep : ascii) (s : string) : list string :=
  match s with
  | EmptyString => [EmptyString]
  | String c s' =>
      if Ascii.eqb c sep then EmptyString :: split sep s'
      else match split sep s' with
           | [] => [String c EmptyString]
           | w :: ws => String c w :: ws
           end
  end.

(** Whether the character occurs in the string. *)
Fixpoint has_char (c : ascii) (s : string) : bool :=
  match s with
  | EmptyString => false
  | String c' s' => Ascii.eqb c' c || has_char c s'
  end.

(** * The panel's database module *)
Module Panel.

(** The signed-in user as [getCurrentUser] returns it. *)
Record User := { uid : string; email : option string }.

Record ServerStatus := {
  state : string;
  lastUpdated : Z;
  status_message : string;
  status_pid : option Z
}.

(** A record under [servers/{id}]. [allowedUsers] is [None] when the child is
    missing. *)
Record Server := {
  srv_id : string;
  name : string;
  gameType : string;
  allowedUsers : option (gmap string JsVal);
  srv_status : ServerStatus
}.

(** A record under [commands/{id}], as [sendCommand] builds it. *)
Record Command := {
  cmd_id : string;
  serverId : string;
  action : string;
  requestedBy : string;
  requestedByEmail : option string;
  requestedAt : Z;
  cmd_status : string
}.

(** The record under [agent/status]. A missing child reads as [undefined]
    ([JUndefined], [None]). *)
Record Presence := {
  online : JsVal;
  lastHeartbeat : option Z;
  version : option string;
  hostname : option string
}.

(** Contents of the remote store. *)
Record Store := {
  servers : gmap string Server;
  commands : gmap string Command;
  agent_status : option Presence
}.

(** The paths the module addresses; ids are single path segments. *)
Inductive Path :=
  | PServers
  | PAllowedUser (sid uid : string)
  | PCommand (cid : string)
  | PAgentStatus.

(** Requests sent to the store. *)
Inductive Request :=
  | Get (p : Path)
  | Set_ (p : Path) (c : Command).

(** The world [database.js] runs in. [database] is [None] when the handle of
    [firebase-config.js] is [null]; otherwise it gives the store behind the
    handle. [admits] says whether the store serves a request (its access
    rules and the connection decide); a request it does not admit rejects
    the promise. [clock] is what [Date.now()] returns during the call.
    [pushKeys] is the sequence of keys [push] generates on this client and
    [pushed] how many were taken; [requests] records what was sent to the
    store, in order. *)
Record World := {
  isConfigValid : bool;
  database : option Store;
  currentUser : option User;
  clock : Z;
  admits : Request -> bool;
  pushKeys : nat -> string;
  pushed : nat;
  requests : list Request
}.

Definition VALID_ACTIONS : list string := ["start"; "stop"; "restart"].
Definition COMMAND_EXPIRY_MS : Z := 5 * 60 * 1000.

(** Field updates of the world. *)
Definition set_database (w : World) (d : option Store) : World :=
  {| isConfigValid := isConfigValid w; database := d;
     currentUser := currentUser w; clock := clock w; admits := admits w;
     pushKeys := pushKeys w; pushed := pushed w; requests := requests w |}.

Definition log_request (w : World) (r : Request) : World :=
  {| isConfigValid := isConfigValid w; database := database w;
     currentUser := currentUser w; clock := clock w; admits := admits w;
     pushKeys := pushKeys w; pushed := pushed w;
     requests := requests w ++ [r] |}.

(** [push(commandsRef).key]: the next key, generated on the client. *)
Definition take_push_key (w : World) : string * World :=
  (pushKeys w (pushed w),
   {| isConfigValid := isConfigValid w; database := database w;
      currentUser := currentUser w; clock := clock w; admits := admits w;
      pushKeys := pushKeys w; pushed := S (pushed w);
      requests := requests w |}).

(** What [push] promises of the keys it generates: they are pairwise
    distinct, and none of those still to come is in use in the store. *)
Definition push_unique (w : World) : Prop :=
  (∀ i j, pushKeys w i = pushKeys w j → i = j) ∧
  ∀ st i, database w = Some st → (pushed w ≤ i)%nat →
    commands st !! pushKeys w i = None.

(** The value under [servers/{sid}/allowedUsers/{uid}], if any. *)
Definition grant_of (st : Store) (sid u : string) : option JsVal :=
  s ← servers st !! sid; au ← allowedUsers s; au !! u.

(** [snapshot.exists()]: the store holds no [null]. *)
Definition exists_val (o : option JsVal) : bool :=
  match o with
  | Some JNull | Some JUndefined | None => false
  | Some _ => true
  end.

(** [snapshot.val()]. *)
Definition val_of (o : option JsVal) : JsVal := default JNull o.

(** [checkServerAccess(serverId)]. A rejected read is caught and counts as
    no access. *)
Definition checkServerAccess (w : World) (sid : string) : bool * World :=
  match database w with
  | None => (false, w)
  | Some st =>
      match currentUser w with
      | None => (false, w)
      | Some user =>
          let rq := Get (PAllowedUser sid (uid user)) in
          let w1 := log_request w rq in
          if admits w rq then
            let snapshot := grant_of st sid (uid user) in
            (exists_val snapshot && strictly_true (val_of snapshot), w1)
          else (false, w1)
      end
  end.

(** [set(ref(database, commands/k), c)] on the store: the record replaces
    whatever was under the key. *)
Definition store_set_command (st : Store) (k : string) (c : Command) : Store :=
  {| servers := servers st; commands := <[k := c]> (commands st);
     agent_status := agent_status st |}.

(** The object literal [sendCommand] writes. *)
Definition new_command (w : World) (user : User) (commandId sid act : string)
  : Command :=
  {| cmd_id := commandId; serverId := sid; action := act;
     requestedBy := uid user; requestedByEmail := email user;
     requestedAt := clock w; cmd_status := "pending" |}.

(** [sendCommand(serverId, action)]. *)
Definition sendCommand (w : World) (sid act : string) : result string * World :=
  match isConfigValid w, database w with
  | false, _ | _, None => (Throw "Database not available", w)
  | true, Some st =>
      match currentUser w with
      | None => (Throw "You must be signed in to send commands", w)
      | Some user =>
          if negb (bool_decide (act ∈ VALID_ACTIONS)) then
            (Throw ("Invalid action: " ++ act ++ ". Must be one of: "
                    ++ join ", " VALID_ACTIONS), w)
          else
            let '(hasAccess, w1) := checkServerAccess w sid in
            if negb hasAccess then
              (Throw "You do not have access to this server", w1)
            else
              let '(commandId, w2) := take_push_key w1 in
              let command := new_command w user commandId sid act in
              let rq := Set_ (PCommand commandId) command in
              let w3 := log_request w2 rq in
              if admits w rq then
                (Ok commandId,
                 set_database w3 (Some (store_set_command st commandId command)))
              else (Throw "Failed to send command. Please try again.", w3)
      end
  end.

(** The outcomes of [sendCommand], one per path through its body. *)
Inductive send_outcome (w : World) (sid act : string)
  : result string → World → Prop :=
  | send_unavailable :
      isConfigValid w = false ∨ database w = None →
      send_outcome w sid act (Throw "Database not available") w
  | send_signed_out :
      currentUser w = None →
      send_outcome w sid act (Throw "You must be signed in to send commands") w
  | send_invalid :
      act ∉ VALID_ACTIONS →
      send_outcome w sid act
        (Throw ("Invalid action: " ++ act ++ ". Must be one of: "
                ++ join ", " VALID_ACTIONS)) w
  | send_denied user :
      currentUser w = Some user → act ∈ VALID_ACTIONS →
      (checkServerAccess w sid).1 = false →
      send_outcome w sid act (Throw "You do not have access to this server")
        (log_request w (Get (PAllowedUser sid (uid user))))
  | send_rejected st user c :
      database w = Some st →
      currentUser w = Some user → act ∈ VALID_ACTIONS →
      (checkServerAccess w sid).1 = true →
      c = new_command w user (pushKeys w (pushed w)) sid act →
      admits w (Set_ (PCommand (cmd_id c)) c) = false →
      send_outcome w sid act (Throw "Failed to send command. Please try again.")
        (log_request
           (take_push_key (log_request w (Get (PAllowedUser sid (uid user))))).2
           (Set_ (PCommand (cmd_id c)) c))
  | send_written st user c :
      isConfigValid w = true → database w = Some st →
      currentUser w = Some user → act ∈ VALID_ACTIONS →
      (checkServerAccess w sid).1 = true →
      c = new_command w user (pushKeys w (pushed w)) sid act →
      admits w (Set_ (PCommand (cmd_id c)) c) = true →
      send_outcome w sid act (Ok (cmd_id c))
        (set_database
           (log_request
              (take_push_key
                 (log_request w (Get (PAllowedUser sid (uid user))))).2
              (Set_ (PCommand (cmd_id c)) c))
           (Some (store_set_command st (cmd_id c) c))).

(** [server.id = childSnapshot.key]. *)
Definition with_id (k : string) (s : Server) : Server :=
  {| srv_id := k; name := name s; gameType := gameType s;
     allowedUsers := allowedUsers s; srv_status := srv_status s |}.

(** The names every plain object inherits from [Object.prototype]; all of
    them but [__proto__] name functions. *)
Definition Object_prototype : list string :=
  ["constructor"; "__defineGetter__"; "__defineSetter__"; "hasOwnProperty";
   "__lookupGetter__"; "__lookupSetter__"; "isPrototypeOf";
   "propertyIsEnumerable"; "toString"; "valueOf"; "__proto__";
   "toLocaleString"].

(** [obj[key]] on the plain object [snapshot.val()] builds from the children
    [obj] of a location: the child stored under the key when there is one,
    else what the prototype chain gives, an object for the inherited names
    and [undefined] for every other key. The object is filled by
    assignment, and assigning to [__proto__] creates no property: that key
    reads as the prototype whatever is stored under it. *)
Definition get_property (obj : gmap string JsVal) (key : string) : JsVal :=
  if bool_decide (key = "__proto__") then JObject
  else
    match obj !! key with
    | Some v => v
    | None =>
        if bool_decide (key ∈ Object_prototype) then JObject else JUndefined
    end.

(** [server.allowedUsers && server.allowedUsers[user.uid]], as a
    condition. *)
Definition has_access (user : User) (s : Server) : bool :=
  match allowedUsers s with
  | None => false
  | Some au => truthy (get_property au (uid user))
  end.

(** [fetchUserServers()]. The children of [servers] are visited in the
    enumeration order of the map. *)
Definition fetchUserServers (w : World) : result (list Server) * World :=
  match isConfigValid w, database w with
  | false, _ | _, None => (Ok [], w)
  | true, Some st =>
      match currentUser w with
      | None => (Ok [], w)
      | Some user =>
          let rq := Get PServers in
          let w1 := log_request w rq in
          if admits w rq then
            if bool_decide (servers st = ∅) then (Ok [], w1)
            else
              (Ok (filter (λ s, Is_true (has_access user s))
                     ((λ ks, with_id ks.1 ks.2) <$> map_to_list (servers st))),
               w1)
          else (Throw "Failed to fetch servers. Please try again.", w1)
      end
  end.

(** The shape the data model gives to [allowedUsers]: every grant stored is
    a boolean. *)
Definition boolean_grants (st : Store) : Prop :=
  ∀ sid s au u v,
    servers st !! sid = Some s → allowedUsers s = Some au →
    au !! u = Some v → ∃ b, v = JBool b.

(** What [subscribeToAgentStatus] hands to its callback. The fields other
    than [online] and [message] are absent from the short reports. *)
Record AgentReport := {
  rep_online : JsVal;
  rep_lastHeartbeat : option Z;
  rep_version : option string;
  rep_hostname : option string;
  rep_message : string
}.

Definition short_report (msg : string) : AgentReport :=
  {| rep_online := JBool false; rep_lastHeartbeat := None;
     rep_version := None; rep_hostname := None; rep_message := msg |}.

(** [s || d] for an optional string: the empty string is falsy too. *)
Definition or_string (o : option string) (d : string) : string :=
  match o with
  | Some s => if bool_decide (s = "") then d else s
  | None => d
  end.

(** The value listener of [subscribeToAgentStatus]: [now] is what
    [Date.now()] returns when the snapshot arrives, [snapshot] is [None]
    when [snapshot.exists()] is false. *)
Definition onAgentStatus (now : Z) (snapshot : option Presence) : AgentReport :=
  match snapshot with
  | None => short_report "Agent not registered"
  | Some status =>
      let lastHeartbeat' := default 0%Z (lastHeartbeat status) in
      let isOnline :=
        js_and (online status) (now - lastHeartbeat' <? 90000)%Z in
      {| rep_online := isOnline;
         rep_lastHeartbeat := Some lastHeartbeat';
         rep_version := Some (or_string (version status) "Unknown");
         rep_hostname := Some (or_string (hostname status) "Unknown");
         rep_message := if truthy isOnline then "Agent online"
                        else "Agent offline" |}
  end.

(** What the store delivers to a listener on [agent/status]. *)
Inductive AgentEvent :=
  | Value (now : Z) (snapshot : option Presence)
  | Cancelled.

Definition deliver (e : AgentEvent) : AgentReport :=
  match e with
  | Value now snapshot => onAgentStatus now snapshot
  | Cancelled => short_report "Connection error"
  end.

(** [subscribeToAgentStatus(callback)]: the reports the callback receives for
    the events the store delivers while the listener is attached. *)
Definition subscribeToAgentStatus (w : World) (events : list AgentEvent)
  : list AgentReport :=
  match isConfigValid w, database w with
  | false, _ | _, None => [short_report "Database not connected"]
  | true, Some _ => deliver <$> events
  end.

End Panel.

(** * The process supervisor ([ServerManager]) *)
Module Supervisor.

Local Open Scope Z_scope.

Inductive Signal := SIGTERM | SIGKILL.

#[global] Instance Signal_eq_dec : EqDecision Signal.
Proof. solve_decision. Defined.

(** The [ChildProcess] object [spawn] returns. [pid] is [undefined] ([None])
    when the process could not be started; [killed] is the flag that only
    the object's own [kill] method sets. *)
Record ChildProcess := { pid : option Z; killed : bool }.

Record LogEntry := { timestamp : Z; type : string; message : string }.

(** The [processInfo] object. [exitCode] is [JUndefined] until the exit
    listener assigns the code ([JNum]) or [null] (ended by a signal). *)
Record ProcessInfo := {
  process : option ChildProcess;
  startTime : Z;
  logs : list LogEntry;
  maxLogs : nat;
  exitCode : JsVal;
  exitTime : option Z;
  error : option string
}.

(** The arguments [spawn] receives: the file, the argument array and, of the
    options, [cwd] and [detached] (the [stdio] option is left out). No
    [shell] option is ever passed. *)
Record SpawnCall := {
  executable : string;
  args : list string;
  cwd : string;
  detached : bool
}.

(** [spawn] throws, or returns a child with or without a pid. *)
Inductive SpawnOutcome :=
  | SpawnThrows (msg : string)
  | Spawned (p : option Z).

(** The callbacks handed to [setTimeout]. [ForceKill] closes over the
    [processInfo] object, [DeferredStart] over the arguments of
    [restartServer]. *)
Inductive Task :=
  | ForceKill (r : nat)
  | DeferredStart (serverId : Z) (command : string)
      (workingDirectory : option string).

(** The supervisor and the part of the world it acts on. [processInfo]
    objects live in [heap] and [processes] maps a server id to the address of
    its object, so that listeners and timers keep acting on the object they
    closed over. [os_spawn n call] is what the operating system answers to
    the [n]-th spawn, [os_groups] the process groups alive; [spawned],
    [signals] and [timers] record the spawn calls made, the signals
    delivered to process groups and the timers armed with their due time. *)
Record State := {
  heap : gmap nat ProcessInfo;
  processes : gmap Z nat;
  clock : Z;
  process_cwd : string;
  os_spawn : nat -> SpawnCall -> SpawnOutcome;
  os_groups : gset Z;
  spawned : list SpawnCall;
  signals : list (Z * Signal);
  timers : list (Z * Task)
}.

(** Field updates of the state. *)
Definition set_heap (st : State) (h : gmap nat ProcessInfo) : State :=
  {| heap := h; processes := processes st; clock := clock st;
     process_cwd := process_cwd st; os_spawn := os_spawn st;
     os_groups := os_groups st; spawned := spawned st;
     signals := signals st; timers := timers st |}.

Definition set_processes (st : State) (m : gmap Z nat) : State :=
  {| heap := heap st; processes := m; clock := clock st;
     process_cwd := process_cwd st; os_spawn := os_spawn st;
     os_groups := os_groups st; spawned := spawned st;
     signals := signals st; timers := timers st |}.

Definition set_clock (st : State) (t : Z) : State :=
  {| heap := heap st; processes := processes st; clock := t;
     process_cwd := process_cwd st; os_spawn := os_spawn st;
     os_groups := os_groups st; spawned := spawned st;
     signals := signals st; timers := timers st |}.

Definition set_os_groups (st : State) (g : gset Z) : State :=
  {| heap := heap st; processes := processes st; clock := clock st;
     process_cwd := process_cwd st; os_spawn := os_spawn st;
     os_groups := g; spawned := spawned st;
     signals := signals st; timers := timers st |}.

Definition log_spawn (st : State) (c : SpawnCall) : State :=
  {| heap := heap st; processes := processes st; clock := clock st;
     process_cwd := process_cwd st; os_spawn := os_spawn st;
     os_groups := os_groups st; spawned := spawned st ++ [c];
     signals := signals st; timers := timers st |}.

Definition log_signal (st : State) (n : Z) (sig : Signal) : State :=
  {| heap := heap st; processes := processes st; clock := clock st;
     process_cwd := process_cwd st; os_spawn := os_spawn st;
     os_groups := os_groups st; spawned := spawned st;
     signals := signals st ++ [(n, sig)]; timers := timers st |}.

(** [setTimeout(task, delay)]. *)
Definition setTimeout (st : State) (task : Task) (delay : Z) : State :=
  {| heap := heap st; processes := processes st; clock := clock st;
     process_cwd := process_cwd st; os_spawn := os_spawn st;
     os_groups := os_groups st; spawned := spawned st;
     signals := signals st;
     timers := timers st ++ [(clock st + delay, task)] |}.

(** [this.processes.get(serverId)]: the address and the object behind it. *)
Definition processes_get (st : State) (serverId : Z)
  : option (nat * ProcessInfo) :=
  r ← processes st !! serverId; info ← heap st !! r; Some (r, info).

(** [processInfo.process && !processInfo.process.killed]. *)
Definition not_killed (info : ProcessInfo) : bool :=
  match process info with
  | Some p => negb (killed p)
  | None => false
  end.

(** The test that opens [startServer]: the map has an entry for the id, and
    its process is there and not flagged killed. *)
Definition has_unkilled_process (st : State) (serverId : Z) : bool :=
  match processes_get st serverId with
  | Some (_, processInfo) => not_killed processInfo
  | None => false
  end.

Record StartResult := { res_pid : option Z; res_startTime : Z }.

(** [startServer(serverId, command, workingDirectory = process.cwd())]. *)
Definition startServer (st : State) (serverId : Z) (command : string)
    (workingDirectory : option string) : result StartResult * State :=
  if has_unkilled_process st serverId
  then (Throw "Server is already running", st)
  else
    let parts := split " " command in
    let call := {| executable := hd "" parts; args := tl parts;
                   cwd := default (process_cwd st) workingDirectory;
                   detached := true |} in
    let st1 := log_spawn st call in
    match os_spawn st (List.length (spawned st)) call with
    | SpawnThrows msg => (Throw msg, st1)
    | Spawned p =>
        let processInfo :=
          {| process := Some {| pid := p; killed := false |};
             startTime := clock st; logs := []; maxLogs := 100;
             exitCode := JUndefined; exitTime := None; error := None |} in
        let r := fresh (dom (heap st)) in
        let st2 := set_os_groups st1
                     (match p with
                      | Some n => {[n]} ∪ os_groups st
                      | None => os_groups st
                      end) in
        let st3 := set_heap st2 (<[r := processInfo]> (heap st)) in
        let st4 := set_processes st3 (<[serverId := r]> (processes st)) in
        (Ok {| res_pid := p; res_startTime := clock st |}, st4)
    end.

(** [process.kill(-pid, signal)]: signals the process group of [pid]. It
    throws when [pid] is [undefined] and when no such group is alive. *)
Definition process_kill (st : State) (p : option Z) (sig : Signal)
  : result unit * State :=
  match p with
  | None => (Throw "The pid argument must be of type number", st)
  | Some n =>
      if bool_decide (n ∈ os_groups st) then (Ok tt, log_signal st n sig)
      else (Throw "kill ESRCH", st)
  end.

Record StopResult := { success : bool }.

(** [stopServer(serverId)]. *)
Definition stopServer (st : State) (serverId : Z) : result StopResult * State :=
  match processes_get st serverId with
  | None => (Throw "Server is not running", st)
  | Some (r, processInfo) =>
      match process processInfo with
      | None => (Throw "Server is not running", st)
      | Some p =>
          if killed p then (Throw "Server is already stopped", st)
          else
            match process_kill st (pid p) SIGTERM with
            | (Throw msg, _) => (Throw ("Failed to stop server: " ++ msg), st)
            | (Ok _, st1) =>
                (Ok {| success := true |}, setTimeout st1 (ForceKill r) 10000)
            end
      end
  end.

(** [restartServer(serverId, command, workingDirectory)] up to the moment it
    returns its promise: a failure of [stopServer] is swallowed, and the
    start is left to a timer. *)
Definition restartServer (st : State) (serverId : Z) (command : string)
    (workingDirectory : option string) : State :=
  let st1 :=
    if has_unkilled_process st serverId then (stopServer st serverId).2
    else st in
  setTimeout st1 (DeferredStart serverId command workingDirectory) 3000.

(** What a timer does when it fires. [DeferredStart] settles the promise of
    [restartServer] with the outcome of [startServer]. *)
Definition fire (st : State) (task : Task)
  : option (result StartResult) * State :=
  match task with
  | ForceKill r =>
      match heap st !! r with
      | Some processInfo =>
          if not_killed processInfo then
            (None, (process_kill st (process processInfo ≫= pid) SIGKILL).2)
          else (None, st)
      | None => (None, st)
      end
  | DeferredStart serverId command workingDirectory =>
      let '(res, st') := startServer st serverId command workingDirectory in
      (Some res, st')
  end.

(** What happens to the supervisor from outside: the listeners registered by
    [startServer] run on the object [r] they closed over, process groups
    disappear, time passes. *)
Inductive Event :=
  | ChildExit (r : nat) (code : JsVal)
  | ChildError (r : nat) (msg : string)
  | ChildData (r : nat) (ty : string) (data : string)
  | GroupGone (n : Z)
  | Elapse (dt : Z).

Definition on_exit (now : Z) (code : JsVal) (i : ProcessInfo) : ProcessInfo :=
  {| process := process i; startTime := startTime i; logs := logs i;
     maxLogs := maxLogs i; exitCode := code; exitTime := Some now;
     error := error i |}.

Definition on_error (msg : string) (i : ProcessInfo) : ProcessInfo :=
  {| process := process i; startTime := startTime i; logs := logs i;
     maxLogs := maxLogs i; exitCode := exitCode i; exitTime := exitTime i;
     error := Some msg |}.

Definition on_data (now : Z) (ty data : string) (i : ProcessInfo)
  : ProcessInfo :=
  let pushed :=
    (logs i ++ [{| timestamp := now; type := ty; message := data |}])%list in
  {| process := process i; startTime := startTime i;
     logs := if bool_decide (maxLogs i < List.length pushed)%nat then tl pushed
             else pushed;
     maxLogs := maxLogs i; exitCode := exitCode i; exitTime := exitTime i;
     error := error i |}.

Definition step (st : State) (e : Event) : State :=
  match e with
  | ChildExit r code => set_heap st (alter (on_exit (clock st) code) r (heap st))
  | ChildError r msg => set_heap st (alter (on_error msg) r (heap st))
  | ChildData r ty data =>
      set_heap st (alter (on_data (clock st) ty data) r (heap st))
  | GroupGone n => set_os_groups st (os_groups st ∖ {[n]})
  | Elapse dt => set_clock st (clock st + dt)
  end.

(** What can happen to the supervisor: a call of one of its methods, an
    event from outside, a timer firing. *)
Inductive Call :=
  | CStart (serverId : Z) (command : string) (workingDirectory : option string)
  | CStop (serverId : Z)
  | CRestart (serverId : Z) (command : string)
      (workingDirectory : option string)
  | CEvent (e : Event)
  | CFire (task : Task).

Definition perform (st : State) (c : Call) : State :=
  match c with
  | CStart sid command wd => (startServer st sid command wd).2
  | CStop sid => (stopServer st sid).2
  | CRestart sid command wd => restartServer st sid command wd
  | CEvent e => step st e
  | CFire task => (fire st task).2
  end.

Definition run (st : State) (calls : list Call) : State :=
  foldl perform st calls.

(** The timer a call of [restartServer] has armed for the start: the last
    one on record when the call returns. *)
Definition restart_timer (st : State) (serverId : Z) (command : string)
    (workingDirectory : option string) : option (Z * Task) :=
  last (timers (restartServer st serverId command workingDirectory)).

(** The state in which that timer fires: the state the call left, after
    whatever came while the timer was pending (other calls, events, time
    passing), and not before the time the timer is due. *)
Definition restart_due_state (st : State) (serverId : Z) (command : string)
    (workingDirectory : option string) (pending : list Call) : State :=
  let st2 :=
    run (restartServer st serverId command workingDirectory) pending in
  match restart_timer st serverId command workingDirectory with
  | Some (due, _) => if (clock st2 <? due)%Z then set_clock st2 due else st2
  | None => st2
  end.

(** A whole restart: the call, what happens while its timer is pending, and
    the timer firing; what the callback of the timer returns settles the
    promise. The promise of a call that armed no timer, or a timer that
    starts nothing, would stay pending; neither arises
    ([restartServer] arms its start last), and the model marks both by an
    error of its own. *)
Definition restart_run (st : State) (serverId : Z) (command : string)
    (workingDirectory : option string) (pending : list Call)
  : result StartResult * State :=
  let due := restart_due_state st serverId command workingDirectory pending in
  match restart_timer st serverId command workingDirectory with
  | Some (_, task) =>
      match fire due task with
      | (Some res, st') => (res, st')
      | (None, st') => (Throw "restart: promise left pending", st')
      end
  | None => (Throw "restart: promise left pending", due)
  end.

Record StatusReport := {
  status : string;
  uptime : Z;
  lastExitCode : option JsVal;
  rep_pid : option (option Z);
  rep_startTime : option Z
}.

(** [getServerStatus(serverId)]. *)
Definition getServerStatus (st : State) (serverId : Z) : StatusReport :=
  match processes_get st serverId with
  | None =>
      {| status := "stopped"; uptime := 0; lastExitCode := None;
         rep_pid := None; rep_startTime := None |}
  | Some (_, processInfo) =>
      match process processInfo with
      | None =>
          {| status := "stopped"; uptime := 0; lastExitCode := None;
             rep_pid := None; rep_startTime := None |}
      | Some p =>
          if killed p || bool_decide (exitCode processInfo ≠ JUndefined) then
            {| status := "stopped"; uptime := 0;
               lastExitCode := Some (exitCode processInfo);
               rep_pid := None; rep_startTime := None |}
          else
            {| status := "running";
               uptime := (clock st - startTime processInfo) / 1000;
               lastExitCode := None; rep_pid := Some (pid p);
               rep_startTime := Some (startTime processInfo) |}
      end
  end.

(** A handle is live when its process has been started and no exit has been
    observed for it: the condition under which [getServerStatus] answers
    [running]. *)
Definition live (st : State) (serverId : Z) : bool :=
  bool_decide (status (getServerStatus st serverId) = "running").

End Supervisor.

(** * Concrete worlds used to exercise the definitions *)
Module Scenario.

Import Panel.

(** The resource of the specification's scenario: [srv1] grants [u1]. *)
Definition srv1 : Server :=
  {| srv_id := "srv1"; name := "Survival"; gameType := "minecraft";
     allowedUsers := Some {[ "u1" := JBool true ]};
     srv_status := {| state := "stopped"; lastUpdated := 1700000000000;
                      status_message := "Server stopped";
                      status_pid := None |} |}.

(** A second resource whose grant for [u1] was switched off. *)
Definition srv2 : Server :=
  {| srv_id := "srv2"; name := "Creative"; gameType := "minecraft";
     allowedUsers := Some {[ "u1" := JBool false; "u2" := JBool true ]};
     srv_status := srv_status srv1 |}.

Definition store0 : Store :=
  {| servers := {[ "srv1" := srv1; "srv2" := srv2 ]};
     commands := ∅;
     agent_status :=
       Some {| online := JBool true; lastHeartbeat := Some 1699999909000%Z;
               version := Some "1.0.0"; hostname := Some "host-a" |} |}.

Definition u1 : User := {| uid := "u1"; email := Some "u1@example.org" |}.
Definition u2 : User := {| uid := "u2"; email := None |}.

Definition push_key (n : nat) : string :=
  "-Nq" ++ String (ascii_of_nat (97 + n)) "".

(** A configured panel signed in as [user]; the store serves every request
    that [serves] admits. *)
Definition world_of (user : option User) (serves : Request → bool) : World :=
  {| isConfigValid := true; database := Some store0; currentUser := user;
     clock := 1700000000000; admits := serves; pushKeys := push_key;
     pushed := 0; requests := [] |}.

Definition serves_all (_ : Request) : bool := true.

Definition serves_reads (r : Request) : bool :=
  match r with
  | Get _ => true
  | Set_ _ _ => false
  end.

End Scenario.

(** * A client whose keys never repeat *)
Module Keys.

Import Panel.

(** Keys that carry the number of the call. *)
Definition push_id (n : nat) : string := "-Nq" ++ pretty n.

(** The configured panel of the scenario, signed in as [u1], generating
    these keys. *)
Definition keyed_world : World :=
  {| isConfigValid := true; database := Some Scenario.store0;
     currentUser := Some Scenario.u1; clock := 1700000000000;
     admits := Scenario.serves_all; pushKeys := push_id; pushed := 0;
     requests := [] |}.

End Keys.

(** * A caller named like an inherited property *)
Module Strangers.

Import Panel.



End Strangers.

(** * Concrete supervisor states *)
Module Fleet.

Import Supervisor.

(** An operating system that starts every process, numbering them from
    4242. *)
Definition os (n : nat) (_ : SpawnCall) : SpawnOutcome :=
  Spawned (Some (4242 + Z.of_nat n)%Z).

(** The supervisor right after construction. *)
Definition idle : State :=
  {| heap := ∅; processes := ∅; clock := 1700000000000;
     process_cwd := "/srv/phoenix"; os_spawn := os; os_groups := ∅;
     spawned := []; signals := []; timers := [] |}.

Definition launch : string := "java -jar server.jar nogui".

(** Server 1 has been started. *)
Definition running : State := (startServer idle 1 launch None).2.

(** A minute later its process has exited by itself with code 0. *)
Definition exited : State :=
  foldl step running [Elapse 60000; ChildExit 0 (JNum 0); GroupGone 4242].

End Fleet.

(** * More of the language: slices and sorting *)

(** How [Array.prototype.slice] reads an index: a negative one counts from
    the end, and both kinds are clamped to the array. *)
Definition slice_index (len : nat) (i : Z) : nat :=
  if (i <? 0)%Z then Z.to_nat (Z.max (Z.of_nat len + i) 0)
  else Z.to_nat (Z.min i (Z.of_nat len)).

(** [l.slice(start, end)]. *)
Definition slice {A} (l : list A) (start end_ : Z) : list A :=
  let s := slice_index (List.length l) start in
  let e := slice_index (List.length l) end_ in
  take (e - s) (drop s l).

(** [l.slice(start)]. *)
Definition slice_from {A} (l : list A) (start : Z) : list A :=
  drop (slice_index (List.length l) start) l.

(** [Array.prototype.sort(cmp)] for a comparator that orders consistently:
    the sort is stable, so its result is the one of a stable insertion.
    [cmp a b <= 0] keeps [a] before [b]. *)
Fixpoint insert_sorted {A} (cmp : A → A → Z) (a : A) (l : list A) : list A :=
  match l with
  | [] => [a]
  | x :: l' =>
      if (cmp a x <=? 0)%Z then a :: l else x :: insert_sorted cmp a l'
  end.

Definition js_sort {A} (cmp : A → A → Z) (l : list A) : list A :=
  foldr (insert_sorted cmp) [] l.

(** * The command history of [database.js] *)
Module History.

Import Panel.

(** The comparator [(a, b) => b.requestedAt - a.requestedAt]. *)
Definition newest_first (a b : Command) : Z :=
  (requestedAt b - requestedAt a)%Z.

(** [a] may be listed before [b]: it was requested no earlier. *)
Definition not_older (a b : Command) : Prop :=
  (requestedAt b ≤ requestedAt a)%Z.

(** The children of [commands] whose [serverId] is the one asked for, in
    the enumeration order of the map. *)
Definition commands_of (st : Store) (sid : string) : list Command :=
  filter (λ c, serverId c = sid) (map_to_list (commands st)).*2.

(** [getServerCommands(serverId, limit = 10)]. [served] says whether the
    store serves the read of [commands]; a rejected read is caught and gives
    the empty list. [limit] is [None] when the argument is left out. *)
Definition getServerCommands (w : World) (served : bool) (sid : string)
    (limit : option Z) : list Command :=
  match isConfigValid w, database w with
  | false, _ | _, None => []
  | true, Some st =>
      if served then
        if bool_decide (commands st = ∅) then []
        else slice (js_sort newest_first (commands_of st sid)) 0
               (default 10%Z limit)
      else []
  end.

End History.

(** * A store with a command history *)
Module Archive.

Import Panel.

Definition cmd (k sid act : string) (t : Z) (st : string) : Command :=
  {| cmd_id := k; serverId := sid; action := act; requestedBy := "u1";
     requestedByEmail := Some "u1@example.org"; requestedAt := t;
     cmd_status := st |}.

(** Three commands for [srv1] and one for [srv2]. *)
Definition store1 : Store :=
  {| servers := servers Scenario.store0;
     commands :=
       {[ "-Na" := cmd "-Na" "srv1" "start" 1699999000000 "completed";
          "-Nb" := cmd "-Nb" "srv2" "start" 1699999100000 "completed";
          "-Nc" := cmd "-Nc" "srv1" "restart" 1699999200000 "failed";
          "-Nd" := cmd "-Nd" "srv1" "stop" 1699999300000 "completed" ]};
     agent_status := agent_status Scenario.store0 |}.

Definition world1 : World :=
  {| isConfigValid := true; database := Some store1;
     currentUser := Some Scenario.u1; clock := 1700000000000;
     admits := Scenario.serves_all; pushKeys := Scenario.push_key;
     pushed := 0; requests := [] |}.

End Archive.

(** * Formatting for display *)
Module Display.

Local Open Scope Z_scope.

(** The time values a [Date] can hold reach 8.64e15 ms on either side of
    the epoch; [new Date(t)] beyond them is an invalid date. *)
Definition MAX_TIME : Z := 8640000000000000.

(** [formatTimestamp(timestamp)] of [database.js]. [now] is the clock when
    the function runs, [timestamp] is [None] for [undefined] and [null], and
    [toLocaleDateString] renders a date in the browser's locale. With an
    invalid date [diffMs] is [NaN], every comparison fails and the last
    branch prints the invalid date. *)
Definition formatTimestamp (toLocaleDateString : Z → string) (now : Z)
    (timestamp : option Z) : string :=
  match timestamp with
  | None => "Never"
  | Some t =>
      if t =? 0 then "Never"
      else if MAX_TIME <? Z.abs t then "Invalid Date"
      else
        let diffMs := now - t in
        let diffSecs := diffMs / 1000 in
        let diffMins := diffSecs / 60 in
        let diffHours := diffMins / 60 in
        let diffDays := diffHours / 24 in
        if diffSecs <? 60 then "Just now"
        else if diffMins <? 60 then pretty diffMins ++ "m ago"
        else if diffHours <? 24 then pretty diffHours ++ "h ago"
        else if diffDays <? 7 then pretty diffDays ++ "d ago"
        else toLocaleDateString t
  end.

(** [formatUptime(seconds)] of the web client, which shows the [uptime] of
    [getServerStatus]. [%] is the remainder that takes the sign of the
    dividend. *)
Definition formatUptime (seconds : option Z) : string :=
  match seconds with
  | None => "N/A"
  | Some s =>
      if s =? 0 then "N/A"
      else
        let hours := s / 3600 in
        let minutes := (Z.rem s 3600) / 60 in
        let secs := Z.rem s 60 in
        if 0 <? hours then
          pretty hours ++ "h " ++ pretty minutes ++ "m " ++ pretty secs ++ "s"
        else if 0 <? minutes then pretty minutes ++ "m " ++ pretty secs ++ "s"
        else pretty secs ++ "s"
  end.

End Display.

(** * The user as the panel keeps it ([auth.js]) *)
Module Auth.

(** The user object of the identity provider, as far as [formatUser] reads
    it. *)
Record ProviderUser := {
  p_uid : string;
  p_email : option string;
  p_displayName : option string;
  p_photoURL : option string
}.

Record FormattedUser := {
  uid : string;
  email : option string;
  displayName : string;
  photoURL : string;
  firstName : string
}.

(** [formatUser(user)]. *)
Definition formatUser (user : option ProviderUser) : option FormattedUser :=
  match user with
  | None => None
  | Some u =>
      Some {| uid := p_uid u; email := p_email u;
              displayName := Panel.or_string (p_displayName u) "Unknown User";
              photoURL :=
                Panel.or_string (p_photoURL u) "assets/default-avatar.svg";
              firstName :=
                match p_displayName u with
                | Some d =>
                    if bool_decide (d = "") then "User"
                    else hd "" (split " " d)
                | None => "User"
                end |}
  end.

End Auth.

(** * The listener registry of [database.js] *)
Module Listeners.

Import Panel.

(** The locations the module listens to. *)
Inductive Location :=
  | LServers
  | LServerStatus (sid : string)
  | LCommand (cid : string)
  | LAgentStatus.

#[global] Instance Location_eq_dec : EqDecision Location.
Proof. solve_decision. Defined.

(** The key under which [activeListeners] files the reference. *)
Definition key (l : Location) : string :=
  match l with
  | LServers => "servers"
  | LServerStatus sid => "server-status-" ++ sid
  | LCommand cid => "command-" ++ cid
  | LAgentStatus => "agent-status"
  end.

(** [activeListeners] and the callbacks attached at the store, each named
    by a number. *)
Record Registry := {
  activeListeners : gmap string Location;
  attached : list (Location * nat)
}.

Definition empty : Registry := {| activeListeners := ∅; attached := [] |}.

(** [onValue(ref, callback)]. *)
Definition onValue (loc : Location) (cb : nat) (reg : Registry) : Registry :=
  {| activeListeners := activeListeners reg;
     attached := (attached reg ++ [(loc, cb)])%list |}.

(** [off(ref)]: with no callback named, every callback at the location
    goes. *)
Definition off (loc : Location) (reg : Registry) : Registry :=
  {| activeListeners := activeListeners reg;
     attached := filter (λ a, a.1 ≠ loc) (attached reg) |}.

(** [activeListeners.set(key, ref)] and [activeListeners.delete(key)]. *)
Definition register (loc : Location) (reg : Registry) : Registry :=
  {| activeListeners := <[key loc := loc]> (activeListeners reg);
     attached := attached reg |}.

Definition unregister (loc : Location) (reg : Registry) : Registry :=
  {| activeListeners := delete (key loc) (activeListeners reg);
     attached := attached reg |}.

(** A subscription attaches the callback and files the reference; it
    returns the location its unsubscribe function closes over, or [None]
    for the function that does nothing. *)
Definition subscribe (loc : Location) (cb : nat) (reg : Registry)
  : Registry * option Location :=
  (register loc (onValue loc cb reg), Some loc).

(** [subscribeToServers(callback)]. *)
Definition subscribeToServers (w : World) (cb : nat) (reg : Registry)
  : Registry * option Location :=
  match isConfigValid w, database w with
  | false, _ | _, None => (reg, None)
  | true, Some _ =>
      match currentUser w with
      | None => (reg, None)
      | Some _ => subscribe LServers cb reg
      end
  end.

(** [subscribeToServerStatus(serverId, callback)]. *)
Definition subscribeToServerStatus (w : World) (sid : string) (cb : nat)
    (reg : Registry) : Registry * option Location :=
  match isConfigValid w, database w with
  | false, _ | _, None => (reg, None)
  | true, Some _ => subscribe (LServerStatus sid) cb reg
  end.

(** [subscribeToCommand(commandId, callback)]. *)
Definition subscribeToCommand (w : World) (cid : string) (cb : nat)
    (reg : Registry) : Registry * option Location :=
  match isConfigValid w, database w with
  | false, _ | _, None => (reg, None)
  | true, Some _ => subscribe (LCommand cid) cb reg
  end.

(** The registry side of [subscribeToAgentStatus(callback)]. *)
Definition subscribeToAgentStatus (w : World) (cb : nat) (reg : Registry)
  : Registry * option Location :=
  match isConfigValid w, database w with
  | false, _ | _, None => (reg, None)
  | true, Some _ => subscribe LAgentStatus cb reg
  end.

(** The function a subscription returns. *)
Definition unsubscribe (u : option Location) (reg : Registry) : Registry :=
  match u with
  | None => reg
  | Some loc => unregister loc (off loc reg)
  end.

(** [cleanupListeners()]: [off] for every reference on file, then the file
    is cleared. *)
Definition cleanupListeners (reg : Registry) : Registry :=
  {| activeListeners := ∅;
     attached :=
       attached (foldr (λ kv r, off kv.2 r) reg
                   (map_to_list (activeListeners reg))) |}.

(** What a client of the module can do to the registry. *)
Inductive Op :=
  | SubServers (cb : nat)
  | SubServerStatus (sid : string) (cb : nat)
  | SubCommand (cid : string) (cb : nat)
  | SubAgentStatus (cb : nat)
  | Unsub (u : option Location)
  | Cleanup.

Definition apply (w : World) (reg : Registry) (o : Op) : Registry :=
  match o with
  | SubServers cb => (subscribeToServers w cb reg).1
  | SubServerStatus sid cb => (subscribeToServerStatus w sid cb reg).1
  | SubCommand cid cb => (subscribeToCommand w cid cb reg).1
  | SubAgentStatus cb => (subscribeToAgentStatus w cb reg).1
  | Unsub u => unsubscribe u reg
  | Cleanup => cleanupListeners reg
  end.

(** Every callback attached has its location on file under its key. *)
Definition tracked (reg : Registry) : Prop :=
  ∀ loc cb, (loc, cb) ∈ attached reg →
            activeListeners reg !! key loc = Some loc.

End Listeners.

(** * The supervisor over its lifetime *)
Module Lifecycle.

Import Supervisor.

(** [getServerLogs(serverId, limit = 50)]. *)
Definition getServerLogs (st : State) (serverId : Z) (limit : option Z)
  : list LogEntry :=
  match processes_get st serverId with
  | None => []
  | Some (_, processInfo) =>
      slice_from (logs processInfo) (- default 50%Z limit)
  end.

(** The supervisor as its constructor leaves it. *)
Definition pristine (st : State) : Prop :=
  heap st = ∅ ∧ processes st = ∅.

(** What holds of every object the supervisor has created, and of its map:
    the process is there and not flagged killed, the log buffer respects
    its bound of 100, and every entry of the map leads to an object. *)
Definition healthy (st : State) : Prop :=
  (∀ r info, heap st !! r = Some info →
     ∃ p, process info = Some p ∧ killed p = false ∧
          maxLogs info = 100%nat ∧ (List.length (logs info) ≤ 100)%nat) ∧
  (∀ sid r, processes st !! sid = Some r → is_Some (heap st !! r)).

(** Every signal delivered went to the process group of a process the
    supervisor holds a handle of. *)
Definition signals_own (st : State) : Prop :=
  ∀ n sig, (n, sig) ∈ signals st →
    ∃ r info p, heap st !! r = Some info ∧ process info = Some p ∧
                pid p = Some n.

(** Every handle the supervisor holds is what the operating system returned
    for one of the spawn calls on record. *)
Definition handles_spawned (st : State) : Prop :=
  ∀ r info p, heap st !! r = Some info → process info = Some p →
    ∃ i call,
      spawned st !! i = Some call ∧ os_spawn st i call = Spawned (pid p).

End Lifecycle.

(** * The server routes of the backend ([routes/servers.js]) *)
Module Routes.

(** A row of the [servers] table, without its primary key. *)
Record ServerRow := {
  name : string;
  game_type : string;
  host : string;
  port : Z;
  status : string;
  command : string;
  working_directory : option string;
  owner_id : Z
}.

(** The two tables the routes use. [servers] is keyed by the primary key
    [id]; [user_server_access] holds at most one permission for a user and a
    server ([UNIQUE(user_id, server_id)]) and is keyed by that pair.
    [failing] says that the database answers the queries of the request
    with an error. *)
Record Db := {
  servers : gmap Z ServerRow;
  user_server_access : gmap (Z * Z) string;
  failing : bool
}.

Definition set_servers (db : Db) (m : gmap Z ServerRow) : Db :=
  {| servers := m; user_server_access := user_server_access db;
     failing := failing db |}.

Definition set_access (db : Db) (m : gmap (Z * Z) string) : Db :=
  {| servers := servers db; user_server_access := m; failing := failing db |}.

Definition set_status (row : ServerRow) (s : string) : ServerRow :=
  {| name := name row; game_type := game_type row; host := host row;
     port := port row; status := s; command := command row;
     working_directory := working_directory row; owner_id := owner_id row |}.

(** [UPDATE servers SET status = ? WHERE id = ?]. *)
Definition update_status (db : Db) (serverId : Z) (s : string) : Db :=
  set_servers db (alter (λ row, set_status row s) serverId (servers db)).

(** [checkServerAccess(userId, serverId, callback)]: what the callback
    receives. [None] is the error; otherwise the row of the server with
    [user_permission], which is [owner] for the owner and else the
    permission granted, or no row when the server does not exist or the
    user is neither its owner nor granted anything. *)
Definition checkServerAccess (db : Db) (userId serverId : Z)
  : option (option (ServerRow * string)) :=
  if failing db then None
  else Some (row ← servers db !! serverId;
             if bool_decide (owner_id row = userId) then Some (row, "owner")
             else permission ← user_server_access db !! (userId, serverId);
                  Some (row, permission)).

Inductive Body :=
  | BError (error : string)
  | BMessage (message : string)
  | BStarted (message : string) (pid : option Z) (startTime : Z).

Record Response := { code : Z; body : Body }.

(** The checks every route that acts on one server starts with; [refuse]
    is the route's own test on the permission. *)
Definition with_access {A} (db : Db) (userId serverId : Z)
    (refuse : string → option Response)
    (otherwise : A) (k : ServerRow → Response * A) : Response * A :=
  match checkServerAccess db userId serverId with
  | None => ({| code := 500; body := BError "Database error" |}, otherwise)
  | Some None =>
      ({| code := 404; body := BError "Server not found or access denied" |},
       otherwise)
  | Some (Some (server, user_permission)) =>
      match refuse user_permission with
      | Some r => (r, otherwise)
      | None => k server
      end
  end.

(** [server.user_permission === 'view'] *)
Definition refuse_view (user_permission : string) : option Response :=
  if bool_decide (user_permission = "view") then
    Some {| code := 403; body := BError "Insufficient permissions" |}
  else None.

(** [server.user_permission !== 'owner'] *)
Definition refuse_non_owner (what : string) (user_permission : string)
  : option Response :=
  if bool_decide (user_permission ≠ "owner") then
    Some {| code := 403; body := BError what |}
  else None.

(** [POST /:id/start]. *)
Definition post_start (db : Db) (sup : Supervisor.State) (userId serverId : Z)
  : Response * (Db * Supervisor.State) :=
  with_access db userId serverId refuse_view (db, sup) (λ server,
    match Supervisor.startServer sup serverId (command server)
            (working_directory server) with
    | (Ok result, sup') =>
        ({| code := 200;
            body := BStarted "Server started successfully"
                      (Supervisor.res_pid result)
                      (Supervisor.res_startTime result) |},
         (update_status db serverId "running", sup'))
    | (Throw msg, sup') => ({| code := 400; body := BError msg |}, (db, sup'))
    end).

(** [POST /:id/stop]. *)
Definition post_stop (db : Db) (sup : Supervisor.State) (userId serverId : Z)
  : Response * (Db * Supervisor.State) :=
  with_access db userId serverId refuse_view (db, sup) (λ server,
    match Supervisor.stopServer sup serverId with
    | (Ok _, sup') =>
        ({| code := 200; body := BMessage "Server stopped successfully" |},
         (update_status db serverId "stopped", sup'))
    | (Throw msg, sup') => ({| code := 400; body := BError msg |}, (db, sup'))
    end).

(** [POST /:id/restart], up to its answer; [pending] is what happens to the
    supervisor while the route awaits the restart. *)
Definition post_restart (db : Db) (sup : Supervisor.State)
    (userId serverId : Z) (pending : list Supervisor.Call)
  : Response * (Db * Supervisor.State) :=
  with_access db userId serverId refuse_view (db, sup) (λ server,
    match Supervisor.restart_run sup serverId (command server)
            (working_directory server) pending with
    | (Ok result, sup') =>
        ({| code := 200;
            body := BStarted "Server restarted successfully"
                      (Supervisor.res_pid result)
                      (Supervisor.res_startTime result) |},
         (update_status db serverId "running", sup'))
    | (Throw msg, sup') => ({| code := 400; body := BError msg |}, (db, sup'))
    end).

(** [DELETE /:id]: a failure to stop the server is ignored. *)
Definition delete_server (db : Db) (sup : Supervisor.State)
    (userId serverId : Z) : Response * (Db * Supervisor.State) :=
  with_access db userId serverId
    (refuse_non_owner "Only the owner can delete a server") (db, sup)
    (λ server,
       ({| code := 200; body := BMessage "Server deleted successfully" |},
        (set_servers db (delete serverId (servers db)),
         (Supervisor.stopServer sup serverId).2))).

(** The message of [POST /:id/access] for a permission it does not know; it
    quotes the two it knows. *)
Definition permission_message : string :=
  let q := String (ascii_of_nat 34) "" in
  "Permission must be " ++ q ++ "view" ++ q ++ " or " ++ q ++ "control" ++ q.

(** [POST /:id/access] with the body [{userId, permission}]; a field that
    is missing is [None]. [!userId] also holds of 0 and [!permission] of
    the empty string. *)
Definition post_access (db : Db) (userId serverId : Z)
    (target : option Z) (permission : option string) : Response * Db :=
  match target, permission with
  | Some grantee, Some perm =>
      if bool_decide (grantee = 0%Z) || bool_decide (perm = "") then
        ({| code := 400; body := BError "userId and permission are required" |},
         db)
      else if negb (bool_decide (perm ∈ ["view"; "control"])) then
        ({| code := 400; body := BError permission_message |}, db)
      else
        with_access db userId serverId
          (refuse_non_owner "Only the owner can grant access") db
          (λ server,
             ({| code := 200; body := BMessage "Access granted successfully" |},
              set_access db
                (<[(grantee, serverId) := perm]> (user_server_access db))))
  | _, _ =>
      ({| code := 400; body := BError "userId and permission are required" |},
       db)
  end.

(** The user may start, stop and restart the server: it exists, and the
    user owns it or holds a permission other than [view] for it. *)
Definition may_control (db : Db) (userId serverId : Z) : Prop :=
  ∃ row, servers db !! serverId = Some row ∧
    (owner_id row = userId ∨
     ∃ perm, user_server_access db !! (userId, serverId) = Some perm ∧
             perm ≠ "view").

(** The user owns the server. *)
Definition owns (db : Db) (userId serverId : Z) : Prop :=
  ∃ row, servers db !! serverId = Some row ∧ owner_id row = userId.

(** The permissions on record are the two that [POST /:id/access] files. *)
Definition granted_only (db : Db) : Prop :=
  ∀ pair perm, user_server_access db !! pair = Some perm →
               perm = "view" ∨ perm = "control".

End Routes.

(** * A database for the routes *)
Module Tenants.

Import Routes.

(** Server 1 belongs to user 7; user 8 may view it and user 9 control it. *)
Definition db0 : Db :=
  {| servers :=
       {[ 1%Z := {| name := "Survival"; game_type := "minecraft";
                    host := "localhost"; port := 25565; status := "stopped";
                    command := Fleet.launch; working_directory := None;
                    owner_id := 7 |} ]};
     user_server_access := {[ (8%Z, 1%Z) := "view"; (9%Z, 1%Z) := "control" ]};
     failing := false |}.

End Tenants.

(** * Properties of the panel's database module *)
Section PanelSpec.

Import Panel.

(** ** Access check *)

Lemma exists_and_true (o : option JsVal) :
  exists_val o && strictly_true (val_of o) = true ↔ o = Some (JBool true).
Proof.
  unfold strictly_true, val_of. split.
  - intros [_ H]%andb_prop. apply bool_decide_eq_true in H.
    destruct o as [v|]; simpl in H; [by subst | discriminate].
  - by intros ->.
Qed.

(** The check succeeds exactly when the handle and the user are there, the
    store serves the read and the grant is the boolean [true]. *)
Lemma checkServerAccess_true (w : World) (sid : string) :
  (checkServerAccess w sid).1 = true ↔
  ∃ st user, database w = Some st ∧ currentUser w = Some user ∧
    admits w (Get (PAllowedUser sid (uid user))) = true ∧
    grant_of st sid (uid user) = Some (JBool true).
Proof.
  unfold checkServerAccess. split.
  - destruct (database w) as [st|]; [|done].
    destruct (currentUser w) as [user|]; [|done].
    destruct (admits w _) eqn:Ha; [|done]. simpl.
    intros H%exists_and_true. by exists st, user.
  - intros (st & user & -> & -> & -> & Hg). simpl.
    by apply exists_and_true.
Qed.

(** The check only ever logs its one read. *)
Lemma checkServerAccess_world (w : World) (sid : string) :
  (checkServerAccess w sid).2 = w ∨
  ∃ user, currentUser w = Some user ∧
    (checkServerAccess w sid).2 = log_request w (Get (PAllowedUser sid (uid user))).
Proof.
  unfold checkServerAccess.
  destruct (database w); [|by left].
  destruct (currentUser w) as [user|]; [|by left].
  right. exists user. split; [done|]. by destruct (admits w _).
Qed.

(** ** What a call of [sendCommand] can do to the world *)

Lemma sendCommand_outcome (w : World) (sid act : string) :
  send_outcome w sid act (sendCommand w sid act).1 (sendCommand w sid act).2.
Proof.
  unfold sendCommand.
  destruct (isConfigValid w) eqn:Hc; [|constructor; by left].
  destruct (database w) as [st|] eqn:Hd; [|constructor; by right].
  destruct (currentUser w) as [user|] eqn:Hu; [|by constructor].
  destruct (bool_decide (act ∈ VALID_ACTIONS)) eqn:Hact; simpl.
  2: { constructor. by apply bool_decide_eq_false in Hact. }
  apply bool_decide_eq_true in Hact.
  destruct (checkServerAccess w sid) as [hasAccess w1] eqn:Hchk.
  assert (w1 = log_request w (Get (PAllowedUser sid (uid user)))) as ->.
  { destruct (checkServerAccess_world w sid) as [H|(u' & Hu' & H)];
      rewrite Hchk in H; simpl in H.
    - unfold checkServerAccess in Hchk. rewrite Hd, Hu in Hchk.
      destruct (admits w _); by inversion Hchk.
    - congruence. }
  destruct hasAccess; simpl.
  - set (c := new_command w user (pushKeys w (pushed w)) sid act).
    destruct (admits w (Set_ (PCommand (pushKeys w (pushed w))) c)) eqn:Hw.
    + apply (send_written w sid act st user c); try done.
      by rewrite Hchk.
    + apply (send_rejected w sid act st user c); try done.
      by rewrite Hchk.
  - apply (send_denied w sid act user); try done. by rewrite Hchk.
Qed.

(** No call touches the resources, whatever its outcome. *)
Lemma sendCommand_preserves_servers (w : World) (sid act : string) :
  servers <$> database (sendCommand w sid act).2 = servers <$> database w.
Proof.
  destruct (sendCommand_outcome w sid act) as [| | | | |st user c _ Hd];
    try done.
  simpl. by rewrite Hd.
Qed.

(** A rejected write surfaces the retry message and leaves the store as it
    was. *)
Lemma sendCommand_write_rejected (w : World) (sid act : string) :
  (sendCommand w sid act).1 = Throw "Failed to send command. Please try again."
  → database (sendCommand w sid act).2 = database w ∧
    ∃ c, last (requests (sendCommand w sid act).2) = Some (Set_ (PCommand (cmd_id c)) c)
         ∧ admits w (Set_ (PCommand (cmd_id c)) c) = false.
Proof.
  destruct (sendCommand_outcome w sid act); simpl; try discriminate.
  intros _. split; [done|]. exists c. split; [|done].
  by rewrite last_snoc.
Qed.

(** ** Dispatching a command *)

(** The promise of [push] holds in particular when the keys it generates
    are pairwise distinct and the store holds no command but under keys
    generated before. *)
Lemma push_unique_generated (w : World) :
  (∀ i j, pushKeys w i = pushKeys w j → i = j) →
  (∀ st k, database w = Some st → is_Some (commands st !! k) →
     ∃ i, (i < pushed w)%nat ∧ k = pushKeys w i) →
  push_unique w.
Proof.
  intros Hinj Hgen. split; [done|]. intros st i Hd Hi.
  destruct (commands st !! pushKeys w i) as [c|] eqn:Hk; [|done].
  destruct (Hgen st (pushKeys w i) Hd) as (j & Hj & Heq); [by eexists|].
  apply Hinj in Heq. lia.
Qed.

(** The keys of [Keys.keyed_world] keep the promise of [push]. *)
Lemma push_unique_world : push_unique Keys.keyed_world.
Proof.
  split.
  - intros i j H. unfold Keys.keyed_world, Keys.push_id in H. simpl in H.
    by simplify_eq.
  - intros st i [= <-] _. apply lookup_empty.
Qed.

(** C1. For a signed-in caller, an action among start, stop and restart and
    a resource that grants the caller, [sendCommand] sends one write, which
    creates under the key [push] generates the complete record with
    [status = pending], [requestedAt] the current time and [requestedBy] the
    caller's uid; it returns that key and leaves the resources, hence their
    status, untouched. The store is available and serves the two requests.
    With keys as [push] promises them, the key is fresh: nothing was stored
    under it, the promise still holds after the call, and no later call
    returns the key again or replaces the record. *)
Theorem sendCommand_creates_pending_command
    (w : World) (st : Store) (user : User) (sid act : string) :
  isConfigValid w = true →
  database w = Some st →
  currentUser w = Some user →
  act ∈ VALID_ACTIONS →
  admits w (Get (PAllowedUser sid (uid user))) = true →
  grant_of st sid (uid user) = Some (JBool true) →
  let commandId := pushKeys w (pushed w) in
  let command :=
    {| cmd_id := commandId; serverId := sid; action := act;
       requestedBy := uid user; requestedByEmail := email user;
       requestedAt := clock w; cmd_status := "pending" |} in
  push_unique w →
  admits w (Set_ (PCommand commandId) command) = true →
  ∃ w' st',
    sendCommand w sid act = (Ok commandId, w') ∧
    database w' = Some st' ∧
    commands st !! commandId = None ∧
    commands st' = <[commandId := command]> (commands st) ∧
    servers st' = servers st ∧
    agent_status st' = agent_status st ∧
    requests w' =
      (requests w ++ [Get (PAllowedUser sid (uid user));
                      Set_ (PCommand commandId) command])%list ∧
    push_unique w' ∧
    ∀ sid2 act2 id2 w2,
      sendCommand w' sid2 act2 = (Ok id2, w2) →
      id2 ≠ commandId ∧
      ∃ st2, database w2 = Some st2 ∧
             commands st2 !! commandId = Some command.
Proof.
  intros Hc Hd Hu Hact Hread Hgrant commandId command [Hinj Hunused] Hwrite.
  assert (commands st !! commandId = None) as Hfresh
    by (by apply Hunused).
  eexists _, _. split.
  { unfold sendCommand, checkServerAccess.
    rewrite Hc, Hd, Hu, (bool_decide_eq_true_2 _ Hact), Hread, Hgrant.
    simpl. fold commandId. unfold new_command. fold command. rewrite Hwrite.
    reflexivity. }
  split; [reflexivity|]. split; [done|]. split; [done|]. split; [done|].
  split; [done|]. split; [simpl; by rewrite <- app_assoc|].
  match goal with |- push_unique ?x ∧ _ => set (w' := x) end.
  assert (push_unique w') as Hw'.
  { split; [exact Hinj|]. intros st' i [= <-] Hi. simpl in *.
    rewrite lookup_insert_ne; [apply (Hunused st); [done|lia]|].
    intros Heq. apply Hinj in Heq. lia. }
  split; [exact Hw'|].
  intros sid2 act2 id2 w2 Hcall.
  pose proof (sendCommand_outcome w' sid2 act2) as Hout.
  rewrite Hcall in Hout. simpl in Hout.
  inversion Hout as [| | | | |st2 user2 c2 _ Hd2 _ _ _ Hc2 _ Hid Hw2].
  assert (cmd_id c2 = pushKeys w (S (pushed w))) as Hk by (by rewrite Hc2).
  assert (cmd_id c2 ≠ commandId) as Hne.
  { rewrite Hk. intros Heq. apply Hinj in Heq. lia. }
  split; [done|]. eexists. split; [reflexivity|]. simpl.
  rewrite lookup_insert_ne by done.
  injection Hd2 as <-. simpl. by rewrite lookup_insert_eq.
Qed.

Lemma sendCommand_creates_pending_command_witness :
  ∃ w',
    sendCommand Keys.keyed_world "srv1" "start" = (Ok "-Nq0", w') ∧
    (commands <$> database w') =
      Some {[ "-Nq0" :=
                {| cmd_id := "-Nq0"; serverId := "srv1"; action := "start";
                   requestedBy := "u1";
                   requestedByEmail := Some "u1@example.org";
                   requestedAt := 1700000000000; cmd_status := "pending" |} ]}
    ∧ push_unique w'.
Proof.
  destruct (sendCommand_creates_pending_command
              Keys.keyed_world Scenario.store0 Scenario.u1 "srv1" "start")
    as (w' & st' & Hrun & Hdb & _ & Hcmds & _ & _ & _ & Hu & _);
    try reflexivity.
  - compute_done.
  - exact push_unique_world.
  - exists w'. split; [exact Hrun|]. rewrite Hdb. simpl.
    by rewrite Hcmds.
Defined.

(** C2. An action outside start, stop and restart makes [sendCommand] throw
    and leave the world as it was: nothing is sent to the store. Hence no
    call of [sendCommand] ever adds a command with such an action to the
    store. *)
Theorem sendCommand_rejects_invalid_action (w : World) (sid act : string) :
  act ∉ VALID_ACTIONS →
  (∃ msg, sendCommand w sid act = (Throw msg, w)) ∧
  (∀ w0 sid0 act0 st' k c,
      database (sendCommand w0 sid0 act0).2 = Some st' →
      commands st' !! k = Some c → action c = act →
      ∃ st0, database w0 = Some st0 ∧ commands st0 !! k = Some c).
Proof.
  intros Hact. split.
  - unfold sendCommand.
    destruct (isConfigValid w); [|by eexists].
    destruct (database w); [|by eexists].
    destruct (currentUser w); [|by eexists].
    rewrite (bool_decide_eq_false_2 _ Hact). by eexists.
  - intros w0 sid0 act0 st' k c Hdb Hk Hc.
    destruct (sendCommand_outcome w0 sid0 act0)
      as [| | | | |st user c0 _ Hd _ Hact0 _ -> _]; try by exists st'.
    simpl in Hdb. injection Hdb as <-. simpl in Hk.
    destruct (decide (pushKeys w0 (pushed w0) = k)) as [<-|Hne].
    + rewrite lookup_insert_eq in Hk. injection Hk as <-.
      simpl in Hc. by subst act0.
    + rewrite lookup_insert_ne in Hk by done. by exists st.
Qed.

Lemma sendCommand_rejects_invalid_action_witness :
  ∃ msg,
    sendCommand (Scenario.world_of (Some Scenario.u1) Scenario.serves_all)
      "srv1" "delete"
    = (Throw msg, Scenario.world_of (Some Scenario.u1) Scenario.serves_all).
Proof.
  apply (sendCommand_rejects_invalid_action
           (Scenario.world_of (Some Scenario.u1) Scenario.serves_all)
           "srv1" "delete").
  compute_done.
Defined.



(** ** Listing the caller's servers *)

(** For a key that is not inherited, [obj[key]] is the child stored under
    it, or [undefined]. *)
Lemma get_property_own (obj : gmap string JsVal) (key : string) :
  key ∉ Object_prototype →
  get_property obj key = default JUndefined (obj !! key).
Proof.
  intros Hk. unfold get_property.
  rewrite bool_decide_eq_false_2.
  2: { intros ->. apply Hk. unfold Object_prototype. set_solver. }
  destruct (obj !! key); [done|]. by rewrite bool_decide_eq_false_2.
Qed.

(** A truthy child stays truthy when read through the object. *)
Lemma get_property_truthy (obj : gmap string JsVal) (key : string) (v : JsVal) :
  obj !! key = Some v → truthy v = true → truthy (get_property obj key) = true.
Proof.
  intros Hv Ht. unfold get_property. case_bool_decide; [done|]. by rewrite Hv.
Qed.

(** The servers returned are those on which the test of the loop
    succeeds, each under its key. *)
Lemma fetchUserServers_truthy (w : World) (st : Store) (user : User) :
  isConfigValid w = true →
  database w = Some st →
  currentUser w = Some user →
  admits w (Get PServers) = true →
  ∃ l, (fetchUserServers w).1 = Ok l ∧
    ∀ s, s ∈ l ↔
      ∃ sid s0 au, servers st !! sid = Some s0 ∧ s = with_id sid s0 ∧
        allowedUsers s0 = Some au ∧
        truthy (get_property au (uid user)) = true.
Proof.
  intros Hc Hd Hu Hread. unfold fetchUserServers.
  rewrite Hc, Hd, Hu, Hread. case_bool_decide as Hempty; simpl.
  - exists []. split; [done|]. intros s. split; [by intros ?%elem_of_nil|].
    intros (sid & s0 & au & Hs & _). by rewrite Hempty, lookup_empty in Hs.
  - eexists. split; [done|]. intros s.
    rewrite list_elem_of_filter, list_elem_of_fmap. split.
    + intros [Hacc ([sid s0] & -> & Hin%elem_of_map_to_list)]. simpl in *.
      apply Is_true_true in Hacc. unfold has_access in Hacc. simpl in Hacc.
      destruct (allowedUsers s0) as [au|] eqn:Hau; [|done].
      by exists sid, s0, au.
    + intros (sid & s0 & au & Hs & -> & Hau & Hv). split.
      * apply Is_true_true. unfold has_access. simpl. by rewrite Hau.
      * exists (sid, s0). split; [done|]. by apply elem_of_map_to_list.
Qed.

(** With boolean grants, as the data model has them, and a uid that is not
    the name of an inherited property, a signed-in caller whose read the
    store serves gets exactly the stored resources whose [allowedUsers]
    holds [true] for the uid. *)
Lemma fetchUserServers_exactly_granted
    (w : World) (st : Store) (user : User) :
  isConfigValid w = true →
  database w = Some st →
  currentUser w = Some user →
  admits w (Get PServers) = true →
  boolean_grants st →
  uid user ∉ Object_prototype →
  ∃ l, (fetchUserServers w).1 = Ok l ∧
    ∀ s, s ∈ l ↔
      ∃ sid s0, servers st !! sid = Some s0 ∧ s = with_id sid s0 ∧
        grant_of st sid (uid user) = Some (JBool true).
Proof.
  intros Hc Hd Hu Hread Hbool Hown.
  destruct (fetchUserServers_truthy w st user Hc Hd Hu Hread) as (l & Hl & Hin).
  exists l. split; [done|]. intros s. rewrite Hin. split.
  - intros (sid & s0 & au & Hs & -> & Hau & Hv). exists sid, s0.
    repeat split; [done|]. unfold grant_of. rewrite Hs. simpl.
    rewrite Hau. simpl. rewrite get_property_own in Hv by done.
    destruct (au !! uid user) as [v|] eqn:Hg; [|done].
    destruct (Hbool sid s0 au (uid user) v Hs Hau Hg) as [b ->].
    simpl in Hv. by subst b.
  - intros (sid & s0 & Hs & -> & Hg). unfold grant_of in Hg.
    rewrite Hs in Hg. simpl in Hg.
    destruct (allowedUsers s0) as [au|] eqn:Hau; [|done]. simpl in Hg.
    exists sid, s0, au. repeat split; try done.
    by apply (get_property_truthy au (uid user) (JBool true)).
Qed.



(** ** Agent presence *)



End PanelSpec.

(** * Properties of the process supervisor *)
Section SupervisorSpec.

Import Supervisor.

Local Open Scope Z_scope.

(** ** Splitting the command line *)

Lemma split_not_nil (sep : ascii) (s : string) : split sep s ≠ [].
Proof.
  destruct s as [|c s]; simpl; [done|].
  destruct (Ascii.eqb c sep); [done|]. by destruct (split sep s).
Qed.

Lemma join_cons_char (sep : string) (c : ascii) (w : string) (ws : list string) :
  join sep (String c w :: ws) = String c (join sep (w :: ws)).
Proof. by destruct ws. Qed.

(** Joining the pieces with the separator gives the string back. *)
Lemma join_split (sep : ascii) (s : string) :
  join (String sep "") (split sep s) = s.
Proof.
  induction s as [|c s IH]; simpl; [done|].
  destruct (Ascii.eqb c sep) eqn:E.
  - apply Ascii.eqb_eq in E as ->.
    pose proof (split_not_nil sep s) as Hne.
    destruct (split sep s) as [|w ws]; [done|].
    simpl in *. by rewrite IH.
  - pose proof (split_not_nil sep s) as Hne.
    destruct (split sep s) as [|w ws]; [done|].
    by rewrite join_cons_char, IH.
Qed.

(** No piece contains the separator. *)
Lemma split_no_sep (sep : ascii) (s : string) :
  Forall (λ piece, has_char sep piece = false) (split sep s).
Proof.
  induction s as [|c s IH]; simpl; [by repeat constructor|].
  destruct (Ascii.eqb c sep) eqn:E; [by constructor|].
  destruct (split sep s) as [|w ws]; simpl.
  - repeat constructor. simpl. by rewrite E.
  - inversion_clear IH as [|?? Hw Hws]. constructor; [|done].
    simpl. by rewrite E.
Qed.

(** ** Starting *)

(** The guard of [startServer] in terms of the map and the heap. *)
Lemma has_unkilled_process_true (st : State) (sid : Z) :
  has_unkilled_process st sid = true ↔
  ∃ r info p, processes st !! sid = Some r ∧ heap st !! r = Some info ∧
    process info = Some p ∧ killed p = false.
Proof.
  unfold has_unkilled_process, processes_get, not_killed. split.
  - destruct (processes st !! sid) as [r|] eqn:Hr; simpl; [|done].
    destruct (heap st !! r) as [info|] eqn:Hi; simpl; [|done].
    destruct (process info) as [p|] eqn:Hp; [|done].
    intros H%negb_true_iff. by exists r, info, p.
  - intros (r & info & p & -> & Hh & Hp & Hk). simpl. rewrite Hh. simpl.
    by rewrite Hp, Hk.
Qed.

(** While the guard holds nothing happens but the throw. *)
Lemma startServer_guarded (st : State) (sid : Z) (command : string)
    (wd : option string) :
  has_unkilled_process st sid = true →
  startServer st sid command wd = (Throw "Server is already running", st).
Proof. intros H. unfold startServer. by rewrite H. Qed.

(** The call [startServer] hands to [spawn], when it makes one. *)
Lemma startServer_call (st : State) (sid : Z) (command : string)
    (wd : option string) (call : SpawnCall) :
  spawned (startServer st sid command wd).2 = (spawned st ++ [call])%list →
  has_unkilled_process st sid = false ∧
  call = {| executable := hd "" (split " " command);
            args := tl (split " " command);
            cwd := default (process_cwd st) wd; detached := true |}.
Proof.
  unfold startServer.
  destruct (has_unkilled_process st sid); simpl.
  - intros H. apply (f_equal List.length) in H.
    rewrite length_app in H. simpl in H. lia.
  - intros H. split; [done|].
    destruct (os_spawn st _ _); simpl in H;
      apply app_inv_head in H; by injection H.
Qed.

(** Without an unkilled process on record, [startServer] spawns, records
    the new object with the start time under the id and returns the pid. *)
Lemma startServer_spawns (st : State) (sid : Z) (command : string)
    (wd : option string) (p : option Z) :
  has_unkilled_process st sid = false →
  let call := {| executable := hd "" (split " " command);
                 args := tl (split " " command);
                 cwd := default (process_cwd st) wd; detached := true |} in
  os_spawn st (List.length (spawned st)) call = Spawned p →
  ∃ st' r,
    startServer st sid command wd =
      (Ok {| res_pid := p; res_startTime := clock st |}, st') ∧
    heap st !! r = None ∧
    processes st' = <[sid := r]> (processes st) ∧
    heap st' !! r =
      Some {| process := Some {| pid := p; killed := false |};
              startTime := clock st; logs := []; maxLogs := 100;
              exitCode := JUndefined; exitTime := None; error := None |} ∧
    spawned st' = (spawned st ++ [call])%list.
Proof.
  intros Hg call Hos. unfold startServer. rewrite Hg. fold call. rewrite Hos.
  eexists _, (fresh (dom (heap st))). split; [reflexivity|]. simpl.
  repeat split.
  - apply not_elem_of_dom, is_fresh.
  - apply lookup_insert_eq.
Qed.

(** C6. [startServer] is meant to fail only while the server runs. On the
    state reached when server 1 was started and its process then exited
    with code 0, no live handle is left ([getServerStatus] answers
    [stopped], the process group is gone), yet [startServer] throws
    [Server is already running] and spawns nothing. *)
Theorem startServer_refuses_exited_server :
  live Fleet.exited 1 = false ∧
  status (getServerStatus Fleet.exited 1) = "stopped" ∧
  (4242 ∉ os_groups Fleet.exited) ∧
  startServer Fleet.exited 1 Fleet.launch None =
    (Throw "Server is already running", Fleet.exited).
Proof.
  split; [vm_compute; reflexivity|]. split; [vm_compute; reflexivity|].
  split; [compute_done|]. apply startServer_guarded. vm_compute; reflexivity.
Qed.

(** A string cut at every space has no piece with a space in it, so no
    command line makes [startServer] pass this argument to [spawn]. *)
Lemma startServer_cannot_pass_spaced_argument :
  ¬ ∃ st sid command wd call,
      spawned (startServer st sid command wd).2 = (spawned st ++ [call])%list ∧
      "my server.jar" ∈ args call.
Proof.
  intros (st & sid & command & wd & call & [_ ->]%startServer_call & Hin).
  simpl in Hin.
  assert ("my server.jar" ∈ split " " command) as Hin'.
  { destruct (split " " command); [by apply elem_of_nil in Hin|by right]. }
  pose proof (split_no_sep " " command) as Hall.
  rewrite Forall_forall in Hall. apply Hall in Hin'. discriminate.
Qed.

(** C7 (amended). [startServer] hands [spawn] an executable and a list of
    arguments, never a shell command line; the list is obtained by cutting
    the configured command string at every space: its first piece is the
    executable, the others are the arguments, so that joining them with
    spaces gives the command back and no argument contains a space. *)
Theorem startServer_passes_split_command (st : State) (sid : Z)
    (command : string) (wd : option string) (call : SpawnCall) :
  spawned (startServer st sid command wd).2 = (spawned st ++ [call])%list →
  executable call :: args call = split " " command ∧
  join " " (executable call :: args call) = command ∧
  Forall (λ a, has_char " " a = false) (executable call :: args call) ∧
  cwd call = default (process_cwd st) wd.
Proof.
  intros [_ ->]%startServer_call. cbn [executable args cwd].
  assert (hd "" (split " " command) :: tl (split " " command)
          = split " " command) as ->.
  { pose proof (split_not_nil " " command). by destruct (split " " command). }
  split; [done|]. split; [apply (join_split " ")|].
  split; [apply split_no_sep|done].
Qed.

Lemma startServer_passes_split_command_witness :
  join " " ["java"; "-jar"; "server.jar"; "nogui"] = Fleet.launch.
Proof.
  apply (startServer_passes_split_command Fleet.idle 1 Fleet.launch None
           {| executable := "java"; args := ["-jar"; "server.jar"; "nogui"];
              cwd := "/srv/phoenix"; detached := true |}).
  reflexivity.
Defined.

(** ** Stopping *)

(** With the configured timeout of 30 seconds the fallback would be due
    30000 ms after the call; the timer [stopServer] arms is not. *)
Lemma stopServer_ignores_configured_timeout :
  ¬ ∀ stopTimeout : Z, ∃ r,
      timers (stopServer Fleet.running 1).2 =
        [(clock Fleet.running + stopTimeout * 1000, ForceKill r)].
Proof.
  intros H. destruct (H 30) as [r Hr]. vm_compute in Hr. discriminate.
Qed.

(** What the forced-termination timer does when it fires, for a handle that
    is still not flagged killed. *)
Lemma fire_ForceKill (late : State) (r : nat) (info : ProcessInfo)
    (p : ChildProcess) (n : Z) :
  heap late !! r = Some info →
  process info = Some p → killed p = false → pid p = Some n →
  fire late (ForceKill r) =
    (None, if bool_decide (n ∈ os_groups late) then log_signal late n SIGKILL
           else late).
Proof.
  intros Hi Hp Hk Hn. unfold fire, not_killed, process_kill.
  rewrite Hi, Hp, Hk. simpl. rewrite Hn. by case_bool_decide.
Qed.

(** C8 (amended). [stopServer] fails with [Server is not running] when no
    handle is recorded for the id. For a recorded handle that is not
    flagged killed and whose process group is alive it sends SIGTERM to the
    group, arms a fallback due a fixed 10000 ms later and returns success
    at once; when the fallback fires and the handle is still not flagged
    killed, it sends SIGKILL to the group if the group is still there and
    does nothing otherwise. *)
Theorem stopServer_term_then_fixed_fallback (st : State) (sid : Z) :
  (processes st !! sid = None →
   stopServer st sid = (Throw "Server is not running", st)) ∧
  (∀ r info p n,
     processes st !! sid = Some r → heap st !! r = Some info →
     process info = Some p → killed p = false → pid p = Some n →
     n ∈ os_groups st →
     ∃ st',
       stopServer st sid = (Ok {| success := true |}, st') ∧
       signals st' = (signals st ++ [(n, SIGTERM)])%list ∧
       timers st' = (timers st ++ [(clock st + 10000, ForceKill r)])%list ∧
       heap st' = heap st ∧ processes st' = processes st ∧
       os_groups st' = os_groups st ∧
       ∀ late info',
         heap late !! r = Some info' → process info' = Some p →
         fire late (ForceKill r) =
           (None, if bool_decide (n ∈ os_groups late)
                  then log_signal late n SIGKILL else late)).
Proof.
  split.
  - intros Hnone. unfold stopServer, processes_get. by rewrite Hnone.
  - intros r info p n Hr Hi Hp Hk Hn Hg.
    unfold stopServer, processes_get, process_kill.
    rewrite Hr. simpl. rewrite Hi. simpl. rewrite Hp, Hk, Hn.
    rewrite (bool_decide_eq_true_2 _ Hg).
    eexists. split; [reflexivity|]. repeat split.
    intros late info' Hi' Hp'. by apply (fire_ForceKill late r info' p n).
Qed.

Lemma stopServer_term_then_fixed_fallback_witness :
  ∃ st',
    stopServer Fleet.running 1 = (Ok {| success := true |}, st') ∧
    signals st' = [(4242, SIGTERM)] ∧
    timers st' = [(1700000010000, ForceKill 0)].
Proof.
  destruct (proj2 (stopServer_term_then_fixed_fallback Fleet.running 1)
              0%nat
              {| process := Some {| pid := Some 4242; killed := false |};
                 startTime := 1700000000000; logs := []; maxLogs := 100;
                 exitCode := JUndefined; exitTime := None; error := None |}
              {| pid := Some 4242; killed := false |} 4242)
    as (st' & Hrun & Hsig & Htim & _); try reflexivity.
  exists st'. by repeat split.
Defined.

(** ** Restarting *)

(** Events from outside leave the map, the spawn record and the process
    objects of the handles as they are. *)
Lemma step_frame (st : State) (e : Event) :
  processes (step st e) = processes st ∧
  spawned (step st e) = spawned st ∧
  ∀ r, process <$> heap (step st e) !! r = process <$> heap st !! r.
Proof.
  destruct e as [r0 code|r0 msg|r0 ty data|n|dt]; simpl;
    repeat split; try done; intros r; rewrite lookup_alter;
    case_decide; subst; try done; by destruct (heap st !! r).
Qed.

Lemma foldl_step_frame (pending : list Event) (st : State) :
  processes (foldl step st pending) = processes st ∧
  spawned (foldl step st pending) = spawned st ∧
  ∀ r, process <$> heap (foldl step st pending) !! r = process <$> heap st !! r.
Proof.
  revert st. induction pending as [|e pending IH]; intros st; simpl; [done|].
  destruct (IH (step st e)) as (-> & -> & Hh).
  destruct (step_frame st e) as (-> & -> & Hh').
  repeat split. intros r. by rewrite Hh, Hh'.
Qed.

(** What [stopServer] can have done to the state: nothing, or one SIGTERM
    and one fallback timer. *)
Lemma stopServer_effect (st : State) (sid : Z) :
  (stopServer st sid).2 = st ∨
  ∃ r n, (stopServer st sid).2
         = setTimeout (log_signal st n SIGTERM) (ForceKill r) 10000.
Proof.
  unfold stopServer, process_kill.
  destruct (processes_get st sid) as [[r info]|]; [|by left].
  destruct (process info) as [p|]; [|by left].
  destruct (killed p); [by left|].
  destruct (pid p) as [n|]; [|by left].
  case_bool_decide; [|by left]. right. by exists r, n.
Qed.

(** [restartServer] leaves the heap, the map and the spawn record alone. *)
Lemma restartServer_frame (st : State) (sid : Z) (command : string)
    (wd : option string) :
  heap (restartServer st sid command wd) = heap st ∧
  processes (restartServer st sid command wd) = processes st ∧
  spawned (restartServer st sid command wd) = spawned st.
Proof.
  unfold restartServer.
  destruct (has_unkilled_process st sid); [|done].
  by destruct (stopServer_effect st sid) as [->|(r & n & ->)].
Qed.

(** [stopServer] does not touch the clock. *)
Lemma stopServer_clock (st : State) (sid : Z) :
  clock (stopServer st sid).2 = clock st.
Proof. by destruct (stopServer_effect st sid) as [->|(r & n & ->)]. Qed.

Lemma restartServer_clock (st : State) (sid : Z) (command : string)
    (wd : option string) :
  clock (restartServer st sid command wd) = clock st.
Proof.
  unfold restartServer. simpl.
  destruct (has_unkilled_process st sid); [apply stopServer_clock|done].
Qed.

(** The timer [restartServer] arms last is the start, due 3000 ms after
    the call. *)
Lemma restartServer_arms (st : State) (sid : Z) (command : string)
    (wd : option string) :
  restart_timer st sid command wd
  = Some (clock st + 3000, DeferredStart sid command wd).
Proof.
  unfold restart_timer, restartServer. simpl. rewrite last_snoc.
  destruct (has_unkilled_process st sid); [|done].
  by rewrite stopServer_clock.
Qed.

(** The timer fires in the state that the pending calls and events left,
    with the clock at the due time when they took less. *)
Lemma restart_due_state_cases (st : State) (sid : Z) (command : string)
    (wd : option string) (pending : list Call) :
  let reached := run (restartServer st sid command wd) pending in
  (clock st + 3000 ≤ clock reached ∧
   restart_due_state st sid command wd pending = reached) ∨
  (clock reached < clock st + 3000 ∧
   restart_due_state st sid command wd pending
   = set_clock reached (clock st + 3000)).
Proof.
  intros reached. unfold restart_due_state. rewrite restartServer_arms.
  fold reached. destruct (clock reached <? clock st + 3000) eqn:E.
  - right. by apply Z.ltb_lt in E.
  - left. by apply Z.ltb_ge in E.
Qed.

(** Firing the timer is calling [startServer] in that state. *)
Lemma restart_run_fires (st : State) (sid : Z) (command : string)
    (wd : option string) (pending : list Call) :
  restart_run st sid command wd pending
  = startServer (restart_due_state st sid command wd pending) sid command wd.
Proof.
  unfold restart_run. rewrite restartServer_arms. unfold fire.
  by destruct (startServer _ sid command wd).
Qed.




(** C10. When the process recorded for a server has exited and its handle
    is not flagged killed, [getServerStatus] answers [stopped] with uptime
    0 while [startServer] throws [Server is already running]: the server
    reads as stopped and cannot be started. *)
Theorem exited_server_reads_stopped_cannot_start (st : State) (sid : Z)
    (r : nat) (info : ProcessInfo) (p : ChildProcess)
    (command : string) (wd : option string) :
  processes st !! sid = Some r →
  heap st !! r = Some info →
  process info = Some p →
  killed p = false →
  exitCode info ≠ JUndefined →
  getServerStatus st sid =
    {| status := "stopped"; uptime := 0;
       lastExitCode := Some (exitCode info);
       rep_pid := None; rep_startTime := None |} ∧
  startServer st sid command wd = (Throw "Server is already running", st).
Proof.
  intros Hr Hi Hp Hk Hx. split.
  - unfold getServerStatus, processes_get. rewrite Hr. simpl. rewrite Hi.
    simpl. rewrite Hp, Hk. by rewrite (bool_decide_eq_true_2 _ Hx).
  - apply startServer_guarded, has_unkilled_process_true.
    by exists r, info, p.
Qed.

Lemma exited_server_reads_stopped_cannot_start_witness :
  status (getServerStatus Fleet.exited 1) = "stopped" ∧
  uptime (getServerStatus Fleet.exited 1) = 0 ∧
  startServer Fleet.exited 1 "java -jar server.jar nogui" None =
    (Throw "Server is already running", Fleet.exited).
Proof.
  destruct (exited_server_reads_stopped_cannot_start Fleet.exited 1 0%nat
              {| process := Some {| pid := Some 4242; killed := false |};
                 startTime := 1700000000000; logs := []; maxLogs := 100;
                 exitCode := JNum 0; exitTime := Some 1700000060000;
                 error := None |}
              {| pid := Some 4242; killed := false |}
              "java -jar server.jar nogui" None) as [Hs Hstart];
    try reflexivity.
  - discriminate.
  - rewrite Hs. by repeat split.
Defined.

End SupervisorSpec.

(** * Properties of the command history *)
Section HistorySpec.

Import Panel History.

Local Open Scope Z_scope.

(** ** Slices and the stable sort *)

Lemma slice_index_nonneg (len : nat) (i : Z) :
  0 ≤ i → slice_index len i = (Z.to_nat i `min` len)%nat.
Proof.
  intros Hi. unfold slice_index.
  destruct (i <? 0) eqn:E; [apply Z.ltb_lt in E; lia|].
  by rewrite Z2Nat.inj_min, Nat2Z.id.
Qed.

Lemma slice_index_neg (len : nat) (i : Z) :
  i < 0 → slice_index len i = (len - Z.to_nat (- i))%nat.
Proof.
  intros Hi. unfold slice_index.
  destruct (i <? 0) eqn:E; [|apply Z.ltb_ge in E; lia]. lia.
Qed.

(** A slice from the start with a limit that is not negative is a prefix. *)
Lemma slice_0_nonneg {A} (l : list A) (n : Z) :
  0 ≤ n → slice l 0 n = take (Z.to_nat n) l.
Proof.
  intros Hn. unfold slice.
  rewrite (slice_index_nonneg _ 0), (slice_index_nonneg _ n) by lia.
  simpl. rewrite Nat.sub_0_r.
  destruct (decide (Z.to_nat n ≤ List.length l)%nat).
  - by rewrite Nat.min_l.
  - rewrite Nat.min_r by lia. rewrite drop_0.
    by rewrite !take_ge by lia.
Qed.

(** With a negative limit it is the list without its last elements. *)
Lemma slice_0_neg {A} (l : list A) (n : Z) :
  n < 0 → slice l 0 n = take (List.length l - Z.to_nat (- n)) l.
Proof.
  intros Hn. unfold slice.
  rewrite (slice_index_nonneg _ 0), (slice_index_neg _ n) by lia.
  simpl. by rewrite Nat.sub_0_r, drop_0.
Qed.

Lemma insert_sorted_perm {A} (cmp : A → A → Z) (a : A) (l : list A) :
  insert_sorted cmp a l ≡ₚ a :: l.
Proof.
  induction l as [|x l IH]; simpl; [done|].
  destruct (cmp a x <=? 0); [done|]. by rewrite IH, Permutation_swap.
Qed.

(** Sorting rearranges and nothing else. *)
Lemma js_sort_perm {A} (cmp : A → A → Z) (l : list A) :
  js_sort cmp l ≡ₚ l.
Proof.
  induction l as [|a l IH]; simpl; [done|].
  by rewrite insert_sorted_perm, IH.
Qed.

Lemma insert_newest_first_sorted (a : Command) (l : list Command) :
  StronglySorted not_older l →
  StronglySorted not_older (insert_sorted newest_first a l).
Proof.
  induction 1 as [|x l Hl IH Hx]; simpl; [by repeat constructor|].
  unfold newest_first at 1. destruct (_ <=? 0) eqn:E.
  - apply Z.leb_le in E. constructor; [by constructor|].
    constructor; [unfold not_older; lia|].
    eapply Forall_impl; [exact Hx|]. unfold not_older. intros; lia.
  - apply Z.leb_gt in E. constructor; [done|].
    rewrite insert_sorted_perm. constructor; [unfold not_older; lia|done].
Qed.

Lemma js_sort_newest_first_sorted (l : list Command) :
  StronglySorted not_older (js_sort newest_first l).
Proof.
  induction l as [|a l IH]; simpl; [constructor|].
  by apply insert_newest_first_sorted.
Qed.

Lemma StronglySorted_take {A} (R : A → A → Prop) (n : nat) (l : list A) :
  StronglySorted R l → StronglySorted R (take n l).
Proof.
  intros H. revert n. induction H as [|x l Hl IH Hx]; intros [|n]; simpl;
    try constructor; [apply IH|]. by apply Forall_take.
Qed.

(** In a sorted list every element of a prefix is listed before every
    element behind the prefix. *)
Lemma StronglySorted_take_drop {A} (R : A → A → Prop) (n : nat) (l : list A) :
  StronglySorted R l →
  ∀ x y, x ∈ take n l → y ∈ drop n l → R x y.
Proof.
  intros H. revert n. induction H as [|a l Hl IH Ha]; intros n x y.
  - by rewrite take_nil; intros ?%elem_of_nil.
  - destruct n as [|n]; simpl; [by intros ?%elem_of_nil|].
    intros [->|Hx]%elem_of_cons Hy.
    + rewrite Forall_forall in Ha. by eapply Ha, subseteq_drop.
    + by eapply IH.
Qed.

Lemma commands_of_spec (st : Store) (sid : string) (c : Command) :
  c ∈ commands_of st sid ↔
  serverId c = sid ∧ ∃ k, commands st !! k = Some c.
Proof.
  unfold commands_of. rewrite list_elem_of_filter, list_elem_of_fmap.
  split.
  - intros [Hs ([k c'] & -> & Hin%elem_of_map_to_list)]. eauto.
  - intros [Hs [k Hk]]. split; [done|]. exists (k, c).
    split; [done|]. by apply elem_of_map_to_list.
Qed.

(** What [getServerCommands] returns, in every case, is a slice of the
    sorted commands of the server. *)
Lemma getServerCommands_slice (w : World) (served : bool) (sid : string)
    (limit : option Z) :
  getServerCommands w served sid limit = [] ∨
  ∃ st, database w = Some st ∧
    getServerCommands w served sid limit =
      slice (js_sort newest_first (commands_of st sid)) 0 (default 10 limit).
Proof.
  unfold getServerCommands.
  destruct (isConfigValid w); [|by left].
  destruct (database w) as [st|]; [|by left].
  destruct served; [|by left]. case_bool_decide; [by left|].
  right. by exists st.
Qed.

Lemma elem_of_slice_0 {A} (l : list A) (n : Z) (x : A) :
  x ∈ slice l 0 n → x ∈ l.
Proof.
  destruct (decide (0 ≤ n)).
  - rewrite slice_0_nonneg by done. apply subseteq_take.
  - rewrite slice_0_neg by lia. apply subseteq_take.
Qed.

Lemma slice_0_sorted {A} (R : A → A → Prop) (l : list A) (n : Z) :
  StronglySorted R l → StronglySorted R (slice l 0 n).
Proof.
  intros H. destruct (decide (0 ≤ n)).
  - rewrite slice_0_nonneg by done. by apply StronglySorted_take.
  - rewrite slice_0_neg by lia. by apply StronglySorted_take.
Qed.

(** X1. Whatever the world and the limit, every command
    [getServerCommands] returns is stored under [commands] and targets the
    server asked for, and the list runs from the newest request to the
    oldest. *)
Theorem getServerCommands_of_server_newest_first (w : World) (served : bool)
    (sid : string) (limit : option Z) :
  (∀ c, c ∈ getServerCommands w served sid limit →
        serverId c = sid ∧
        ∃ st k, database w = Some st ∧ commands st !! k = Some c) ∧
  StronglySorted not_older (getServerCommands w served sid limit).
Proof.
  destruct (getServerCommands_slice w served sid limit)
    as [->|(st & Hd & ->)].
  - split; [by intros c ?%elem_of_nil|constructor].
  - split.
    + intros c Hc%elem_of_slice_0. rewrite js_sort_perm in Hc.
      apply commands_of_spec in Hc as [? [k ?]]. eauto.
    + apply slice_0_sorted, js_sort_newest_first_sorted.
Qed.

(** X2. When the store serves the read and the limit is not negative,
    [getServerCommands] returns as many commands of the server as the limit
    allows, and the ones it leaves out were requested no later than any it
    returns. *)
Theorem getServerCommands_keeps_most_recent (w : World) (st : Store)
    (sid : string) (limit : option Z) :
  isConfigValid w = true →
  database w = Some st →
  0 ≤ default 10 limit →
  let l := getServerCommands w true sid limit in
  List.length l
    = (Z.to_nat (default 10%Z limit)
         `min` List.length (commands_of st sid))%nat ∧
  ∃ rest, (l ++ rest)%list ≡ₚ commands_of st sid ∧
    ∀ c c', c ∈ l → c' ∈ rest → requestedAt c' ≤ requestedAt c.
Proof.
  intros Hc Hd Hn l.
  assert (l = take (Z.to_nat (default 10 limit))
                (js_sort newest_first (commands_of st sid))) as ->.
  { subst l. unfold getServerCommands. rewrite Hc, Hd.
    case_bool_decide as He; [|by apply slice_0_nonneg].
    unfold commands_of. rewrite He, map_to_list_empty. simpl.
    by rewrite take_nil. }
  split.
  - by rewrite length_take, (Permutation_length (js_sort_perm _ _)).
  - exists (drop (Z.to_nat (default 10 limit))
              (js_sort newest_first (commands_of st sid))).
    split; [by rewrite take_drop, js_sort_perm|].
    intros c c' Hin Hin'.
    eapply (StronglySorted_take_drop not_older); [|exact Hin|exact Hin'].
    apply js_sort_newest_first_sorted.
Qed.

End HistorySpec.

Section HistoryComposition.

Import Panel History.

Local Open Scope Z_scope.

Lemma getServerCommands_keeps_most_recent_witness :
  List.length (getServerCommands Archive.world1 true "srv1" (Some 2)) = 2%nat.
Proof.
  apply (getServerCommands_keeps_most_recent Archive.world1 Archive.store1
           "srv1" (Some 2)); try reflexivity.
  simpl. lia.
Defined.

(** X3. A negative limit is not an error: the read being served,
    [getServerCommands] then leaves out the [-limit] oldest commands of the
    server and returns the others from the newest request to the oldest;
    the answer is empty as soon as [-limit] reaches the number of commands
    of the server. *)
Theorem getServerCommands_negative_limit (w : World) (st : Store)
    (sid : string) (n : Z) :
  isConfigValid w = true →
  database w = Some st →
  n < 0 →
  let l := getServerCommands w true sid (Some n) in
  List.length l = (List.length (commands_of st sid) - Z.to_nat (- n))%nat ∧
  (l = [] ↔ Z.of_nat (List.length (commands_of st sid)) ≤ - n) ∧
  StronglySorted not_older l ∧
  ∃ rest,
    List.length rest
    = (Z.to_nat (- n) `min` List.length (commands_of st sid))%nat ∧
    (l ++ rest)%list ≡ₚ commands_of st sid ∧
    ∀ c c', c ∈ l → c' ∈ rest → requestedAt c' ≤ requestedAt c.
Proof.
  intros Hc Hd Hn l.
  assert (l = take (List.length (commands_of st sid) - Z.to_nat (- n))
                (js_sort newest_first (commands_of st sid))) as ->.
  { subst l. unfold getServerCommands. rewrite Hc, Hd. simpl.
    case_bool_decide as He.
    - unfold commands_of. rewrite He, map_to_list_empty. simpl.
      by rewrite ?take_nil.
    - rewrite slice_0_neg by done.
      by rewrite (Permutation_length (js_sort_perm _ _)). }
  pose proof (Permutation_length (js_sort_perm newest_first
                                    (commands_of st sid))) as Hlen.
  assert (List.length
            (take (List.length (commands_of st sid) - Z.to_nat (- n))
               (js_sort newest_first (commands_of st sid)))
          = (List.length (commands_of st sid) - Z.to_nat (- n))%nat) as Hl
    by (rewrite length_take, Hlen; lia).
  split; [done|]. split; [|split].
  - rewrite <- length_zero_iff_nil, Hl. lia.
  - apply StronglySorted_take, js_sort_newest_first_sorted.
  - exists (drop (List.length (commands_of st sid) - Z.to_nat (- n))
              (js_sort newest_first (commands_of st sid))).
    split; [rewrite length_drop, Hlen; lia|].
    split; [by rewrite take_drop, js_sort_perm|].
    intros c c' Hin Hin'.
    eapply (StronglySorted_take_drop not_older); [|exact Hin|exact Hin'].
    apply js_sort_newest_first_sorted.
Qed.

Lemma getServerCommands_negative_limit_witness :
  List.length (getServerCommands Archive.world1 true "srv1" (Some (-1)))
  = 2%nat.
Proof.
  apply (getServerCommands_negative_limit Archive.world1 Archive.store1
           "srv1" (-1)); try reflexivity.
Defined.

(** The commands of a server after one more command was stored under an
    unused key. *)
Lemma commands_of_insert (st : Store) (k : string) (c : Command) :
  commands st !! k = None →
  commands_of (store_set_command st k c) (serverId c)
  ≡ₚ c :: commands_of st (serverId c).
Proof.
  intros Hk. unfold commands_of, store_set_command. simpl.
  rewrite map_to_list_insert by done. rewrite fmap_cons. simpl.
  by rewrite filter_cons_True.
Qed.

(** In a sorted list an element newer than all the others comes first. *)
Lemma sorted_head_newest (l : list Command) (c : Command) :
  StronglySorted not_older l → c ∈ l →
  (∀ x, x ∈ l → x = c ∨ requestedAt x < requestedAt c) →
  head l = Some c.
Proof.
  intros Hs Hc Hnew. destruct l as [|h l]; [by apply elem_of_nil in Hc|].
  simpl. f_equal. destruct (Hnew h) as [->|Hlt]; [by left|done|].
  apply elem_of_cons in Hc as [->|Hc]; [done|].
  apply StronglySorted_inv in Hs as [_ Hh]. rewrite Forall_forall in Hh.
  specialize (Hh c Hc). unfold not_older in Hh. lia.
Qed.

(** X4. A command that [sendCommand] has just stored under an unused key
    heads the history of its server, provided the commands already stored
    for that server were requested earlier and the limit is at least 1. *)
Theorem sendCommand_then_getServerCommands (w w' : World) (st : Store)
    (sid act k : string) (limit : option Z) :
  database w = Some st →
  commands st !! pushKeys w (pushed w) = None →
  (∀ c, c ∈ commands_of st sid → requestedAt c < clock w) →
  1 ≤ default 10 limit →
  sendCommand w sid act = (Ok k, w') →
  ∃ c, head (getServerCommands w' true sid limit) = Some c ∧
    cmd_id c = k ∧ serverId c = sid ∧ action c = act ∧
    requestedAt c = clock w ∧ cmd_status c = "pending".
Proof.
  intros Hd Hfresh Hold Hlim Hsend.
  pose proof (sendCommand_outcome w sid act) as Hout.
  rewrite Hsend in Hout. simpl in Hout.
  inversion Hout as [| | | | |st0 user c Hc Hd0 Hu Hact Hacc Hcmd Hadm Hk Hw'].
  assert (st0 = st) as -> by congruence.
  exists c. split; [|by rewrite Hcmd].
  assert (cmd_id c = pushKeys w (pushed w)) as Hid by by rewrite Hcmd.
  assert (serverId c = sid) as Hsid by by rewrite Hcmd.
  assert (requestedAt c = clock w) as Hat by by rewrite Hcmd.
  rewrite Hid in *. clear Hout Hsend Hw' Hk.
  pose proof (commands_of_insert st (pushKeys w (pushed w)) c Hfresh) as Hperm.
  rewrite Hsid in Hperm.
  unfold getServerCommands. simpl. rewrite Hc.
  case_bool_decide as He.
  { apply (f_equal (λ m, m !! pushKeys w (pushed w))) in He.
    by rewrite lookup_insert_eq, lookup_empty in He. }
  rewrite slice_0_nonneg by lia.
  set (sorted := js_sort newest_first _).
  assert (head sorted = Some c) as Hhead.
  { apply sorted_head_newest.
    - apply js_sort_newest_first_sorted.
    - subst sorted. rewrite js_sort_perm, Hperm. by left.
    - intros x Hx. subst sorted. rewrite js_sort_perm, Hperm in Hx.
      apply elem_of_cons in Hx as [->|Hx]; [by left|].
      right. rewrite Hat. by apply Hold. }
  destruct sorted as [|h t]; [done|].
  destruct (Z.to_nat (default 10 limit)) eqn:En; [lia|done].
Qed.

Lemma sendCommand_then_getServerCommands_witness :
  ∃ c, head (getServerCommands
               (sendCommand Archive.world1 "srv1" "start").2 true "srv1"
               (Some 5)) = Some c ∧
    cmd_id c = "-Nqa" ∧ serverId c = "srv1" ∧ action c = "start" ∧
    requestedAt c = 1700000000000 ∧ cmd_status c = "pending".
Proof.
  apply (sendCommand_then_getServerCommands Archive.world1
           (sendCommand Archive.world1 "srv1" "start").2 Archive.store1
           "srv1" "start" "-Nqa" (Some 5)); try reflexivity.
  - intros c [_ [k Hk]]%commands_of_spec. simpl in Hk.
    repeat (apply lookup_insert_Some in Hk as [[_ <-]|[_ Hk]];
            [simpl; lia|]).
    apply lookup_singleton_Some in Hk as [_ <-]. simpl. lia.
  - simpl. lia.
Defined.

End HistoryComposition.

(** * More properties of the dispatcher *)
Section DispatcherFrame.

Import Panel.

(** X5. Whenever [sendCommand] throws, whatever the reason, the store
    behind the handle is as it was before the call. *)
Theorem sendCommand_failure_keeps_store (w : World) (sid act msg : string) :
  (sendCommand w sid act).1 = Throw msg →
  database (sendCommand w sid act).2 = database w.
Proof.
  by destruct (sendCommand_outcome w sid act).
Qed.

Lemma sendCommand_failure_keeps_store_witness :
  database
    (sendCommand (Scenario.world_of (Some Scenario.u1) Scenario.serves_reads)
       "srv1" "start").2
  = Some Scenario.store0.
Proof.
  apply (sendCommand_failure_keeps_store
           (Scenario.world_of (Some Scenario.u1) Scenario.serves_reads)
           "srv1" "start" "Failed to send command. Please try again.").
  reflexivity.
Defined.

(** X6. A call of [sendCommand] changes the store at most under the key
    that [push] generates: the resources, the agent's presence and every
    command stored under another key stay as they are, and no key is ever
    removed. *)
Theorem sendCommand_touches_only_new_key (w : World) (st st' : Store)
    (sid act : string) :
  database w = Some st →
  database (sendCommand w sid act).2 = Some st' →
  servers st' = servers st ∧
  agent_status st' = agent_status st ∧
  (∀ k, k ≠ pushKeys w (pushed w) → commands st' !! k = commands st !! k) ∧
  dom (commands st) ⊆ dom (commands st').
Proof.
  intros Hd Hd'.
  destruct (sendCommand_outcome w sid act)
    as [| | | | |st0 user c _ Hd0 _ _ _ -> _]; simpl in Hd';
    try (assert (st' = st) as -> by congruence; done).
  assert (st0 = st) as -> by congruence.
  injection Hd' as <-. simpl. repeat split.
  - intros k Hk. by rewrite lookup_insert_ne.
  - rewrite dom_insert_L. set_solver.
Qed.

Lemma sendCommand_touches_only_new_key_witness :
  commands
    (store_set_command Archive.store1 "-Nqa"
       (new_command Archive.world1 Scenario.u1 "-Nqa" "srv1" "stop"))
    !! "-Nc"
  = commands Archive.store1 !! "-Nc".
Proof.
  apply (sendCommand_touches_only_new_key Archive.world1 Archive.store1
           (store_set_command Archive.store1 "-Nqa"
              (new_command Archive.world1 Scenario.u1 "-Nqa" "srv1" "stop"))
           "srv1" "stop"); [reflexivity|reflexivity|].
  vm_compute. discriminate.
Defined.

(** X7. A call of [sendCommand] sends nothing, or the read of the caller's
    grant, or that read followed by one write. The record of the write is
    filed under its own id, names the signed-in caller in [requestedBy],
    targets the server and action of the call and is [pending]: no write
    goes out without the access check before it or in another user's
    name. *)
Theorem sendCommand_requests (w : World) (sid act : string) :
  ∃ sent, requests (sendCommand w sid act).2 = (requests w ++ sent)%list ∧
    (sent = [] ∨
     ∃ user, currentUser w = Some user ∧
       (sent = [Get (PAllowedUser sid (uid user))] ∨
        ∃ c, sent = [Get (PAllowedUser sid (uid user));
                     Set_ (PCommand (cmd_id c)) c] ∧
             (checkServerAccess w sid).1 = true ∧
             requestedBy c = uid user ∧ serverId c = sid ∧
             action c = act ∧ act ∈ VALID_ACTIONS ∧
             cmd_status c = "pending")).
Proof.
  destruct (sendCommand_outcome w sid act)
    as [| | |user Hu _ _|st user c _ Hu Hact Hacc ->
        |st user c _ _ Hu Hact Hacc -> _].
  - exists []. by rewrite app_nil_r; auto.
  - exists []. by rewrite app_nil_r; auto.
  - exists []. by rewrite app_nil_r; auto.
  - eexists. split; [done|]. right. exists user. auto.
  - eexists. split; [simpl; by rewrite <- app_assoc|].
    right. exists user. split; [done|]. right.
    exists (new_command w user (pushKeys w (pushed w)) sid act).
    by repeat split.
  - eexists. split; [simpl; by rewrite <- app_assoc|].
    right. exists user. split; [done|]. right.
    exists (new_command w user (pushKeys w (pushed w)) sid act).
    by repeat split.
Qed.

(** ** Listing *)

(** X8. [fetchUserServers] throws exactly when the panel is configured, a
    user is signed in and the store rejects the read of [servers]; an
    unconfigured panel and a signed-out user get the empty list, without
    a request being sent. In no case does the store change. *)
Theorem fetchUserServers_throws_iff (w : World) :
  ((∃ msg, (fetchUserServers w).1 = Throw msg) ↔
   isConfigValid w = true ∧ is_Some (database w) ∧
   is_Some (currentUser w) ∧ admits w (Get PServers) = false) ∧
  (isConfigValid w = false ∨ database w = None ∨ currentUser w = None →
   fetchUserServers w = (Ok [], w)) ∧
  database (fetchUserServers w).2 = database w.
Proof.
  unfold fetchUserServers.
  destruct (isConfigValid w) eqn:Hc.
  2: { split; [split|split]; [by intros [? [=]]| |done|done].
       by intros ([=] & _). }
  destruct (database w) as [st|] eqn:Hd.
  2: { split; [split|split]; [by intros [? [=]]| |done|done].
       by intros (_ & [? [=]] & _). }
  destruct (currentUser w) as [user|] eqn:Hu.
  2: { split; [split|split]; [by intros [? [=]]| |done|done].
       by intros (_ & _ & [? [=]] & _). }
  destruct (admits w (Get PServers)) eqn:Ha.
  - split; [split|split].
    + by case_bool_decide; intros [? [=]].
    + by intros (_ & _ & _ & [=]).
    + by intros [[=]|[[=]|[=]]].
    + by case_bool_decide.
  - split; [split|split].
    + intros _. by repeat (split; [eauto|]).
    + intros _. by eexists.
    + by intros [[=]|[[=]|[=]]].
    + done.
Qed.

(** The ids of the children of a snapshot, each child under its key. *)
Lemma with_id_keys (m : gmap string Server) (user : User) :
  NoDup (srv_id <$> filter (λ s, Is_true (has_access user s))
                      ((λ ks, with_id ks.1 ks.2) <$> map_to_list m)).
Proof.
  set (l := (λ ks, with_id ks.1 ks.2) <$> map_to_list m).
  assert (NoDup (srv_id <$> l)) as Hnd.
  { subst l. rewrite <- list_fmap_compose.
    rewrite (list_fmap_ext _ fst (map_to_list m)) by (by intros ? [??]).
    apply NoDup_fst_map_to_list. }
  clearbody l. induction l as [|s l IH]; simpl; [constructor|].
  rewrite fmap_cons in Hnd. apply NoDup_cons in Hnd as [Hs Hl].
  rewrite filter_cons. case_decide; [|by apply IH].
  rewrite fmap_cons. apply NoDup_cons. split; [|by apply IH].
  intros (s' & Heq & [_ Hin]%list_elem_of_filter)%list_elem_of_fmap.
  apply Hs. apply list_elem_of_fmap. by exists s'.
Qed.

(** X9. The servers [fetchUserServers] returns have pairwise distinct ids,
    and each id is a key of [servers] in the store. *)
Theorem fetchUserServers_distinct_ids (w : World) (l : list Server) :
  (fetchUserServers w).1 = Ok l →
  NoDup (srv_id <$> l) ∧
  ∀ s, s ∈ l → ∃ st, database w = Some st ∧ is_Some (servers st !! srv_id s).
Proof.
  unfold fetchUserServers.
  destruct (isConfigValid w), (database w) as [st|];
    try (intros [= <-]; split; [constructor|by intros ? ?%elem_of_nil]).
  destruct (currentUser w) as [user|];
    [|intros [= <-]; split; [constructor|by intros ? ?%elem_of_nil]].
  destruct (admits w (Get PServers)); [|done].
  case_bool_decide;
    [intros [= <-]; split; [constructor|by intros ? ?%elem_of_nil]|].
  intros [= <-]. split; [apply with_id_keys|].
  intros s [_ ([k s0] & -> & Hin%elem_of_map_to_list)%list_elem_of_fmap]
    %list_elem_of_filter.
  exists st. split; [done|]. simpl. by exists s0.
Qed.

Lemma fetchUserServers_distinct_ids_witness :
  ∃ l, (fetchUserServers
          (Scenario.world_of (Some Scenario.u2) Scenario.serves_all)).1 = Ok l
       ∧ NoDup (srv_id <$> l).
Proof.
  eexists. split; [reflexivity|].
  apply (fetchUserServers_distinct_ids
           (Scenario.world_of (Some Scenario.u2) Scenario.serves_all)).
  reflexivity.
Defined.

(** X10. A server that passes [checkServerAccess] is among the servers
    [fetchUserServers] lists, when the store serves the read of
    [servers]: whoever may send commands to a server also sees it. *)
Theorem checkServerAccess_implies_listed (w : World) (sid : string) :
  isConfigValid w = true →
  admits w (Get PServers) = true →
  (checkServerAccess w sid).1 = true →
  ∃ l s, (fetchUserServers w).1 = Ok l ∧ s ∈ l ∧ srv_id s = sid.
Proof.
  intros Hc Hread (st & user & Hd & Hu & _ & Hg)%checkServerAccess_true.
  destruct (fetchUserServers_truthy w st user Hc Hd Hu Hread) as (l & Hl & Hin).
  unfold grant_of in Hg.
  destruct (servers st !! sid) as [s0|] eqn:Hs; [|done]. simpl in Hg.
  destruct (allowedUsers s0) as [au|] eqn:Hau; [|done]. simpl in Hg.
  exists l, (with_id sid s0). split; [done|]. split; [|done].
  apply Hin. exists sid, s0, au. repeat split; try done.
  by apply (get_property_truthy au (uid user) (JBool true)).
Qed.

Lemma checkServerAccess_implies_listed_witness :
  ∃ l s,
    (fetchUserServers
       (Scenario.world_of (Some Scenario.u1) Scenario.serves_all)).1 = Ok l ∧
    s ∈ l ∧ srv_id s = "srv1".
Proof.
  apply (checkServerAccess_implies_listed
           (Scenario.world_of (Some Scenario.u1) Scenario.serves_all) "srv1");
    reflexivity.
Defined.

End DispatcherFrame.

(** * Properties of the display helpers *)
Section DisplaySpec.

Import Display.

Local Open Scope Z_scope.

Lemma div_ltb (a b c : Z) : 0 < b → (a / b <? c) = (a <? b * c).
Proof.
  intros Hb. destruct (a <? b * c) eqn:E.
  - apply Z.ltb_lt in E. apply Z.ltb_lt. by apply Z.div_lt_upper_bound.
  - apply Z.ltb_ge in E. apply Z.ltb_ge. by apply Z.div_le_lower_bound.
Qed.

(** X11. For a timestamp other than 0 that a [Date] can hold,
    [formatTimestamp] goes by the milliseconds elapsed: less than a minute
    (a timestamp in the future included) reads [Just now]; then come whole
    minutes from 1 to 59, whole hours from 1 to 23 and whole days from 1 to
    6; from seven days on the date is shown. A timestamp beyond the range
    of [Date] reads [Invalid Date]. *)
Theorem formatTimestamp_buckets (render : Z → string) (now t : Z) :
  t ≠ 0 →
  let d := now - t in
  (Z.abs t ≤ MAX_TIME →
   (d < 60000 → formatTimestamp render now (Some t) = "Just now") ∧
   (60000 ≤ d < 3600000 →
    formatTimestamp render now (Some t) = pretty (d / 60000) ++ "m ago" ∧
    1 ≤ d / 60000 ≤ 59) ∧
   (3600000 ≤ d < 86400000 →
    formatTimestamp render now (Some t) = pretty (d / 3600000) ++ "h ago" ∧
    1 ≤ d / 3600000 ≤ 23) ∧
   (86400000 ≤ d < 604800000 →
    formatTimestamp render now (Some t) = pretty (d / 86400000) ++ "d ago" ∧
    1 ≤ d / 86400000 ≤ 6) ∧
   (604800000 ≤ d → formatTimestamp render now (Some t) = render t)) ∧
  (MAX_TIME < Z.abs t →
   formatTimestamp render now (Some t) = "Invalid Date").
Proof.
  intros Ht d. unfold formatTimestamp. fold d.
  rewrite (proj2 (Z.eqb_neq t 0) Ht). split.
  2: { intros Hbig. by rewrite (proj2 (Z.ltb_lt _ _) Hbig). }
  intros Hrange. rewrite (proj2 (Z.ltb_ge _ _) Hrange).
  rewrite !Z.div_div by lia. rewrite !div_ltb by lia.
  change (1000 * 60 * 60 * 24) with 86400000.
  change (1000 * 60 * 60) with 3600000.
  change (1000 * 60) with 60000.
  change (1000 * 60) with 60000.
  change (60000 * 60) with 3600000.
  change (3600000 * 24) with 86400000.
  change (86400000 * 7) with 604800000.
  repeat split.
  - intros H. by rewrite (proj2 (Z.ltb_lt _ _) H).
  - rewrite (proj2 (Z.ltb_ge _ _) (proj1 H)).
    by rewrite (proj2 (Z.ltb_lt _ _) (proj2 H)).
  - apply Z.div_le_lower_bound; lia.
  - apply Z.lt_succ_r, Z.div_lt_upper_bound; lia.
  - rewrite (proj2 (Z.ltb_ge d 60000)), (proj2 (Z.ltb_ge d 3600000)) by lia.
    by rewrite (proj2 (Z.ltb_lt _ _) (proj2 H)).
  - apply Z.div_le_lower_bound; lia.
  - apply Z.lt_succ_r, Z.div_lt_upper_bound; lia.
  - rewrite (proj2 (Z.ltb_ge d 60000)), (proj2 (Z.ltb_ge d 3600000)),
      (proj2 (Z.ltb_ge d 86400000)) by lia.
    by rewrite (proj2 (Z.ltb_lt _ _) (proj2 H)).
  - apply Z.div_le_lower_bound; lia.
  - apply Z.lt_succ_r, Z.div_lt_upper_bound; lia.
  - intros H.
    by rewrite (proj2 (Z.ltb_ge d 60000)), (proj2 (Z.ltb_ge d 3600000)),
      (proj2 (Z.ltb_ge d 86400000)), (proj2 (Z.ltb_ge d 604800000)) by lia.
Qed.

Lemma formatTimestamp_buckets_witness :
  formatTimestamp (λ _, "11/14/2023") 1700000000000 (Some 1699992000000)
  = "2h ago" ∧
  formatTimestamp (λ _, "11/14/2023") 1700000000000 (Some 10000000000000000)
  = "Invalid Date".
Proof.
  split.
  - apply (formatTimestamp_buckets (λ _, "11/14/2023") 1700000000000
             1699992000000); [lia|unfold MAX_TIME; lia|simpl; lia].
  - apply (formatTimestamp_buckets (λ _, "11/14/2023") 1700000000000
             10000000000000000); [lia|unfold MAX_TIME; lia].
Defined.

(** X12. For a positive number of seconds, the hours, minutes and seconds
    that [formatUptime] prints add up to the input, with minutes and
    seconds below 60; the hours are left out when they are 0, and so are
    the minutes when both are 0. *)
Theorem formatUptime_parts (s : Z) :
  0 < s →
  ∃ h m c,
    s = h * 3600 + m * 60 + c ∧ 0 ≤ h ∧ 0 ≤ m < 60 ∧ 0 ≤ c < 60 ∧
    formatUptime (Some s) =
      if 0 <? h then
        pretty h ++ "h " ++ pretty m ++ "m " ++ pretty c ++ "s"
      else if 0 <? m then pretty m ++ "m " ++ pretty c ++ "s"
      else pretty c ++ "s".
Proof.
  intros Hs. exists (s / 3600), (Z.rem s 3600 / 60), (Z.rem s 60).
  unfold formatUptime. rewrite (proj2 (Z.eqb_neq s 0)) by lia.
  rewrite !Z.rem_mod_nonneg by lia.
  repeat split; try (Z.div_mod_to_equations; lia).
Qed.

Lemma formatUptime_parts_witness :
  ∃ h m c,
    3725 = h * 3600 + m * 60 + c ∧ 0 ≤ h ∧ 0 ≤ m < 60 ∧ 0 ≤ c < 60 ∧
    formatUptime (Some 3725) =
      if 0 <? h then
        pretty h ++ "h " ++ pretty m ++ "m " ++ pretty c ++ "s"
      else if 0 <? m then pretty m ++ "m " ++ pretty c ++ "s"
      else pretty c ++ "s".
Proof. apply (formatUptime_parts 3725). lia. Defined.

End DisplaySpec.

(** * Properties of the formatted user *)
Section AuthSpec.

Import Auth.

(** The first piece of a string cut at a character: it is free of the
    character, and the string is that piece alone or goes on with the
    character. *)
Lemma split_hd (sep : ascii) (s : string) :
  has_char sep (hd "" (split sep s)) = false ∧
  (s = hd "" (split sep s) ∨
   ∃ rest, s = hd "" (split sep s) ++ String sep rest).
Proof.
  pose proof (split_no_sep sep s) as Hno.
  pose proof (join_split sep s) as Hj.
  destruct (split sep s) as [|w ws];
    [simpl in Hj; subst s; split; [done|by left]|].
  inversion_clear Hno as [|?? Hw _]. simpl. split; [done|].
  destruct ws as [|w' ws]; simpl in Hj; [by left|].
  right. exists (join (String sep "") (w' :: ws)).
  by rewrite <- Hj.
Qed.

(** X13. For a user with a display name, the first name [formatUser]
    derives is the display name up to its first space: it contains no
    space, and the display name is the first name alone or the first name
    followed by a space and more. *)
Theorem formatUser_firstName (u : ProviderUser) (d : string)
    (f : FormattedUser) :
  p_displayName u = Some d →
  d ≠ "" →
  formatUser (Some u) = Some f →
  displayName f = d ∧
  has_char " " (firstName f) = false ∧
  (d = firstName f ∨ ∃ rest, d = firstName f ++ " " ++ rest).
Proof.
  intros Hd Hne [= <-]. simpl. rewrite Hd. simpl.
  rewrite !(bool_decide_eq_false_2 _ Hne).
  split; [done|]. apply (split_hd " ").
Qed.

Lemma formatUser_firstName_witness :
  "Ada King Lovelace" = "Ada King Lovelace" ∧
  has_char " " "Ada" = false ∧
  ("Ada King Lovelace" = "Ada" ∨
   ∃ rest, "Ada King Lovelace" = "Ada" ++ " " ++ rest).
Proof.
  apply (formatUser_firstName
           {| p_uid := "u1"; p_email := Some "u1@example.org";
              p_displayName := Some "Ada King Lovelace";
              p_photoURL := None |}
           "Ada King Lovelace"
           {| uid := "u1"; email := Some "u1@example.org";
              displayName := "Ada King Lovelace";
              photoURL := "assets/default-avatar.svg";
              firstName := "Ada" |});
    [reflexivity|discriminate|reflexivity].
Defined.

End AuthSpec.

(** * Properties of the listener registry *)
Section ListenersSpec.

Import Panel Listeners.

(** X14. Two different locations are never filed under the same key of
    [activeListeners]: a subscription cannot displace the entry of a
    subscription to another location. *)
Theorem key_inj (l1 l2 : Location) : key l1 = key l2 → l1 = l2.
Proof.
  destruct l1 as [|s1|c1|], l2 as [|s2|c2|]; intros H;
    cbv [key String.append] in H;
    try done; try (by injection H as ->);
    try (by destruct s1 as [|a1 [|a2 [|a3 [|a4 [|a5 [|a6 [|a7 s1]]]]]]]);
    try (by destruct s2 as [|a1 [|a2 [|a3 [|a4 [|a5 [|a6 [|a7 s2]]]]]]]).
Qed.

Lemma key_inj_witness : LCommand "-Nqa" = LCommand "-Nqa".
Proof. apply (key_inj (LCommand "-Nqa") (LCommand "-Nqa")). reflexivity. Defined.

Lemma off_attached (loc : Location) (reg : Registry) (a : Location * nat) :
  a ∈ attached (off loc reg) ↔ a.1 ≠ loc ∧ a ∈ attached reg.
Proof. unfold off. simpl. by rewrite list_elem_of_filter. Qed.

Lemma tracked_subscribe (loc : Location) (cb : nat) (reg : Registry) :
  tracked reg → tracked (subscribe loc cb reg).1.
Proof.
  intros Ht loc' cb' Hin. simpl in *.
  apply elem_of_app in Hin as [Hin|[= -> ->]%list_elem_of_singleton].
  - destruct (decide (key loc = key loc')) as [He|Hne].
    + apply key_inj in He as ->. apply lookup_insert_eq.
    + rewrite lookup_insert_ne by done. by eapply Ht.
  - apply lookup_insert_eq.
Qed.

Lemma tracked_unsubscribe (u : option Location) (reg : Registry) :
  tracked reg → tracked (unsubscribe u reg).
Proof.
  intros Ht. destruct u as [loc|]; [|done].
  intros loc' cb' [Hne Hin]%off_attached. simpl in *.
  rewrite lookup_delete_ne; [by eapply Ht|].
  intros He%key_inj. by subst.
Qed.

(** What the loop of [cleanupListeners] leaves attached. *)
Lemma cleanup_loop_attached (l : list (string * Location)) (reg : Registry)
    (a : Location * nat) :
  a ∈ attached (foldr (λ kv r, off kv.2 r) reg l) ↔
  (a.1 ∉ l.*2) ∧ a ∈ attached reg.
Proof.
  induction l as [|kv l IH]; cbn [foldr].
  - split; [intros ?; split; [apply not_elem_of_nil|done]|by intros [_ ?]].
  - rewrite off_attached, IH, fmap_cons, not_elem_of_cons.
    split; [by intros (? & ? & ?)|by intros ((? & ?) & ?)].
Qed.

Lemma cleanup_tracked_attached (reg : Registry) :
  tracked reg → attached (cleanupListeners reg) = [].
Proof.
  intros Ht. unfold cleanupListeners. simpl.
  apply elem_of_nil_inv. intros [loc cb] [Hout Hin]%cleanup_loop_attached.
  apply Hout. simpl. apply list_elem_of_fmap. exists (key loc, loc).
  split; [done|]. apply elem_of_map_to_list. by eapply Ht.
Qed.

Lemma tracked_apply (w : World) (reg : Registry) (o : Op) :
  tracked reg → tracked (apply w reg o).
Proof.
  intros Ht.
  destruct o as [cb|sid cb|cid cb|cb|u|]; unfold apply.
  - unfold subscribeToServers.
    destruct (isConfigValid w), (database w), (currentUser w); try done.
    by apply tracked_subscribe.
  - unfold subscribeToServerStatus.
    destruct (isConfigValid w), (database w); try done.
    by apply tracked_subscribe.
  - unfold subscribeToCommand.
    destruct (isConfigValid w), (database w); try done.
    by apply tracked_subscribe.
  - unfold subscribeToAgentStatus.
    destruct (isConfigValid w), (database w); try done.
    by apply tracked_subscribe.
  - by apply tracked_unsubscribe.
  - intros loc cb Hin. rewrite (cleanup_tracked_attached reg Ht) in Hin.
    by apply elem_of_nil in Hin.
Qed.

Lemma tracked_run (w : World) (ops : list Op) (reg : Registry) :
  tracked reg → tracked (foldl (apply w) reg ops).
Proof.
  revert reg. induction ops as [|o ops IH]; intros reg Ht; simpl; [done|].
  by apply IH, tracked_apply.
Qed.

(** X15. Whatever subscriptions were made and undone through the module,
    in whatever order, [cleanupListeners] leaves no callback attached at
    the store and nothing on file. *)
Theorem cleanupListeners_detaches_all (w : World) (ops : list Op) :
  cleanupListeners (foldl (apply w) Listeners.empty ops) = Listeners.empty.
Proof.
  unfold Listeners.empty at 2.
  rewrite <- (cleanup_tracked_attached (foldl (apply w) Listeners.empty ops));
    [done|].
  apply tracked_run. by intros ?? ?%elem_of_nil.
Qed.

(** X16. The function a subscription returns detaches every callback at
    its location, those of other subscriptions to the same location
    included, and removes the entry on file; callbacks at other locations
    stay attached. *)
Theorem unsubscribe_detaches_location (loc : Location) (reg : Registry) :
  let reg' := unsubscribe (Some loc) reg in
  (∀ cb, (loc, cb) ∉ attached reg') ∧
  activeListeners reg' !! key loc = None ∧
  (∀ loc' cb, loc' ≠ loc →
     (loc', cb) ∈ attached reg' ↔ (loc', cb) ∈ attached reg).
Proof.
  intros reg'. subst reg'. unfold unsubscribe.
  change (attached (unregister loc (off loc reg)))
    with (attached (off loc reg)).
  split; [|split].
  - intros cb [Hne _]%off_attached. by apply Hne.
  - apply lookup_delete_eq.
  - intros loc' cb Hne. rewrite off_attached.
    split; [by intros [_ ?]|by intros ?].
Qed.

End ListenersSpec.

(** * Properties of the supervisor over its lifetime *)
Section LifecycleSpec.

Import Supervisor Lifecycle.

Local Open Scope Z_scope.

(** ** The invariant *)

Lemma healthy_ext (st st' : State) :
  heap st' = heap st → processes st' = processes st →
  healthy st → healthy st'.
Proof. intros Hh Hp [H1 H2]. split; rewrite ?Hh, ?Hp; by rewrite ?Hh. Qed.

Lemma pristine_healthy (st : State) : pristine st → healthy st.
Proof.
  intros [Hh Hp]. split.
  - intros r info. by rewrite Hh, lookup_empty.
  - intros sid r. by rewrite Hp, lookup_empty.
Qed.

(** What [startServer] does to the heap and the map: nothing, or one new
    object filed under the id. *)
Lemma startServer_effect (st : State) (sid : Z) (command : string)
    (wd : option string) :
  let st' := (startServer st sid command wd).2 in
  (heap st' = heap st ∧ processes st' = processes st) ∨
  ∃ r p,
    has_unkilled_process st sid = false ∧ heap st !! r = None ∧
    heap st' =
      <[r := {| process := Some {| pid := p; killed := false |};
                startTime := clock st; logs := []; maxLogs := 100;
                exitCode := JUndefined; exitTime := None; error := None |}]>
        (heap st) ∧
    processes st' = <[sid := r]> (processes st).
Proof.
  unfold startServer.
  destruct (has_unkilled_process st sid) eqn:Hg; [by left|].
  destruct (os_spawn st _ _) as [msg|p]; [by left|].
  right. exists (fresh (dom (heap st))), p. simpl.
  repeat split. apply not_elem_of_dom, is_fresh.
Qed.

Lemma startServer_healthy (st : State) (sid : Z) (command : string)
    (wd : option string) :
  healthy st → healthy (startServer st sid command wd).2.
Proof.
  intros Hst.
  destruct (startServer_effect st sid command wd)
    as [[Hh Hp]|(r & p & _ & Hr & Hh & Hp)]; [by eapply healthy_ext|].
  destruct Hst as [H1 H2]. split.
  - intros r' info. rewrite Hh.
    intros [[<- <-]|[_ Hin]]%lookup_insert_Some; [|by eapply H1].
    eexists. repeat split. simpl. lia.
  - intros sid' r'. rewrite Hp, Hh.
    intros [[<- <-]|[_ Hin]]%lookup_insert_Some.
    + rewrite lookup_insert_eq. by eexists.
    + apply lookup_insert_is_Some'. right. by eapply H2.
Qed.

Lemma stopServer_frame (st : State) (sid : Z) :
  heap (stopServer st sid).2 = heap st ∧
  processes (stopServer st sid).2 = processes st.
Proof. by destruct (stopServer_effect st sid) as [->|(r & n & ->)]. Qed.

Lemma on_data_bound (now : Z) (ty data : string) (i : ProcessInfo) :
  (List.length (logs i) ≤ maxLogs i)%nat →
  (List.length (logs (on_data now ty data i)) ≤ maxLogs i)%nat.
Proof.
  intros Hb. unfold on_data. simpl. case_bool_decide as Hc.
  - destruct (logs i) as [|x l]; simpl in *; [lia|].
    rewrite length_app. simpl. lia.
  - rewrite length_app in *. simpl in *. lia.
Qed.

(** A listener that keeps the process, the bound and the bounded buffer of
    the object it runs on keeps the invariant. *)
Lemma alter_healthy (st : State) (f : ProcessInfo → ProcessInfo) (r0 : nat) :
  (∀ i, process (f i) = process i ∧ maxLogs (f i) = maxLogs i ∧
        ((List.length (logs i) ≤ maxLogs i)%nat →
         (List.length (logs (f i)) ≤ maxLogs i)%nat)) →
  healthy st → healthy (set_heap st (alter f r0 (heap st))).
Proof.
  intros Hf [H1 H2]. split.
  - intros r info Hin. simpl in Hin.
    apply lookup_alter_Some in Hin as [[-> (i & Hi & ->)]|[_ Hi]];
      [|by eapply H1].
    destruct (H1 _ _ Hi) as (p & Hp & Hk & Hm & Hl).
    destruct (Hf i) as (Hp' & Hm' & Hl').
    exists p. rewrite Hp', Hm'. repeat split; try done.
    rewrite <- Hm. apply Hl'. by rewrite Hm.
  - intros sid r Hs. simpl in *. apply lookup_alter_is_Some. by eapply H2.
Qed.

Lemma step_healthy (st : State) (e : Event) : healthy st → healthy (step st e).
Proof.
  intros Hst.
  destruct e as [r0 code|r0 msg|r0 ty data|n|dt]; simpl;
    try (by eapply healthy_ext); apply alter_healthy; try done.
  intros i. repeat split. apply on_data_bound.
Qed.

Lemma fire_frame (st : State) (r : nat) :
  heap (fire st (ForceKill r)).2 = heap st ∧
  processes (fire st (ForceKill r)).2 = processes st.
Proof.
  unfold fire, process_kill. destruct (heap st !! r) as [info|]; [|done].
  destruct (not_killed info); [|done].
  destruct (process info ≫= pid) as [n|]; [|done]. by case_bool_decide.
Qed.

Lemma perform_healthy (st : State) (c : Call) :
  healthy st → healthy (perform st c).
Proof.
  intros Hst. destruct c as [sid cmd wd|sid|sid cmd wd|e|[r|sid cmd wd]];
    simpl.
  - by apply startServer_healthy.
  - destruct (stopServer_frame st sid). by eapply healthy_ext.
  - destruct (restartServer_frame st sid cmd wd) as (? & ? & _).
    by eapply healthy_ext.
  - by apply step_healthy.
  - destruct (fire_frame st r). by eapply healthy_ext.
  - pose proof (startServer_healthy st sid cmd wd Hst) as H.
    by destruct (startServer st sid cmd wd).
Qed.

Lemma run_healthy (calls : list Call) (st : State) :
  healthy st → healthy (run st calls).
Proof.
  revert st. induction calls as [|c calls IH]; intros st Hst; [done|].
  by apply IH, perform_healthy.
Qed.

(** ** Logs *)

(** X17. However many lines the processes write, the supervisor keeps at
    most 100 of them per server: in every state reached from a new
    supervisor, [getServerLogs] returns at most 100 entries, whatever limit
    is asked for. *)
Theorem getServerLogs_at_most_100 (st0 : State) (calls : list Call)
    (sid : Z) (limit : option Z) :
  pristine st0 →
  (List.length (getServerLogs (run st0 calls) sid limit) ≤ 100)%nat.
Proof.
  intros Hf. destruct (run_healthy calls st0 (pristine_healthy _ Hf)) as [H1 _].
  unfold getServerLogs, processes_get.
  destruct (processes (run st0 calls) !! sid) as [r|]; simpl; [|lia].
  destruct (heap (run st0 calls) !! r) as [info|] eqn:Hi; simpl; [|lia].
  destruct (H1 r info Hi) as (_ & _ & _ & _ & Hl).
  unfold slice_from. rewrite length_drop. lia.
Qed.

Lemma getServerLogs_at_most_100_witness :
  (List.length
     (getServerLogs
        (run Fleet.idle
           [CStart 1 Fleet.launch None;
            CEvent (ChildData 0 "stdout" "Done (3.2s)!")]) 1 None) ≤ 100)%nat.
Proof.
  apply (getServerLogs_at_most_100 Fleet.idle). by split.
Defined.

(** X18. For a server on record, [getServerLogs] with a positive limit
    returns the last entries of the buffer, as many as the limit allows;
    with the limit 0 it returns the whole buffer, and with a negative limit
    the buffer without its first [-limit] entries. *)
Theorem getServerLogs_tail (st : State) (sid : Z) (r : nat)
    (info : ProcessInfo) (limit : option Z) :
  processes st !! sid = Some r →
  heap st !! r = Some info →
  let n := default 50 limit in
  let l := getServerLogs st sid limit in
  (0 < n →
   l = drop (List.length (logs info) - Z.to_nat n) (logs info) ∧
   List.length l = (Z.to_nat n `min` List.length (logs info))%nat) ∧
  (n = 0 → l = logs info) ∧
  (n < 0 → l = drop (Z.to_nat (- n)) (logs info)).
Proof.
  intros Hr Hi n l. subst l. unfold getServerLogs, processes_get.
  rewrite Hr. simpl. rewrite Hi. simpl. fold n. unfold slice_from.
  split; [|split].
  - intros Hn. rewrite slice_index_neg by lia. rewrite Z.opp_involutive.
    split; [done|]. rewrite length_drop. lia.
  - intros ->. by rewrite (slice_index_nonneg _ 0).
  - intros Hn. rewrite slice_index_nonneg by lia.
    destruct (decide (Z.to_nat (- n) ≤ List.length (logs info))%nat).
    + by rewrite Nat.min_l.
    + rewrite Nat.min_r by lia. by rewrite !drop_ge by lia.
Qed.

Lemma getServerLogs_tail_witness :
  getServerLogs
    (run Fleet.idle
       [CStart 1 Fleet.launch None;
        CEvent (ChildData 0 "stdout" "Loading");
        CEvent (ChildData 0 "stdout" "Done")]) 1 (Some 1)
  = [{| timestamp := 1700000000000; type := "stdout"; message := "Done" |}].
Proof.
  apply (getServerLogs_tail
           (run Fleet.idle
              [CStart 1 Fleet.launch None;
               CEvent (ChildData 0 "stdout" "Loading");
               CEvent (ChildData 0 "stdout" "Done")]) 1 0%nat
           {| process := Some {| pid := Some 4242; killed := false |};
              startTime := 1700000000000;
              logs := [{| timestamp := 1700000000000; type := "stdout";
                          message := "Loading" |};
                       {| timestamp := 1700000000000; type := "stdout";
                          message := "Done" |}];
              maxLogs := 100; exitCode := JUndefined; exitTime := None;
              error := None |} (Some 1)); [reflexivity|reflexivity|].
  simpl. lia.
Defined.

End LifecycleSpec.

(** ** Starting over a lifetime *)
Section LifecycleStart.

Import Supervisor Lifecycle.

Local Open Scope Z_scope.

Lemma healthy_entry_unkilled (st : State) (sid : Z) :
  healthy st → is_Some (processes st !! sid) →
  has_unkilled_process st sid = true.
Proof.
  intros [H1 H2] [r Hr]. destruct (H2 sid r Hr) as [info Hi].
  destruct (H1 r info Hi) as (p & Hp & Hk & _).
  apply has_unkilled_process_true. by exists r, info, p.
Qed.

Lemma perform_keeps_entry (st : State) (c : Call) (sid : Z) (r : nat) :
  healthy st → processes st !! sid = Some r →
  processes (perform st c) !! sid = Some r.
Proof.
  intros Hst Hr.
  assert (∀ sid' cmd wd,
            processes (startServer st sid' cmd wd).2 !! sid = Some r) as Hstart.
  { intros sid' cmd wd.
    destruct (startServer_effect st sid' cmd wd)
      as [[_ ->]|(r' & p & Hg & _ & _ & ->)]; [done|].
    rewrite lookup_insert_ne; [done|]. intros ->.
    rewrite healthy_entry_unkilled in Hg; by eauto. }
  destruct c as [sid' cmd wd|sid'|sid' cmd wd|e|[r'|sid' cmd wd]];
    unfold perform.
  - apply Hstart.
  - by rewrite (proj2 (stopServer_frame st sid')).
  - destruct (restartServer_frame st sid' cmd wd) as (_ & -> & _). done.
  - by rewrite (proj1 (step_frame st e)).
  - by rewrite (proj2 (fire_frame st r')).
  - specialize (Hstart sid' cmd wd). unfold fire.
    by destruct (startServer st sid' cmd wd).
Qed.

Lemma run_keeps_entry (calls : list Call) (st : State) (sid : Z) (r : nat) :
  healthy st → processes st !! sid = Some r →
  processes (run st calls) !! sid = Some r.
Proof.
  revert st. induction calls as [|c calls IH]; intros st Hst Hr; [done|].
  apply IH; [by apply perform_healthy|by apply perform_keeps_entry].
Qed.

(** X19. Once the supervisor has an entry for a server id, that id can
    never be started again, whatever is done and whatever happens to the
    process in the meantime: the entry stays, every later [startServer]
    for the id throws [Server is already running] and changes nothing,
    and so every later restart is refused. *)
Theorem started_server_never_starts_again (st0 : State)
    (calls more : list Call) (sid : Z) (command : string)
    (wd : option string) (pending : list Call) :
  pristine st0 →
  is_Some (processes (run st0 calls) !! sid) →
  let st := run (run st0 calls) more in
  processes st !! sid = processes (run st0 calls) !! sid ∧
  startServer st sid command wd = (Throw "Server is already running", st) ∧
  (restart_run st sid command wd pending).1
    = Throw "Server is already running".
Proof.
  intros Hf [r Hr] st.
  pose proof (run_healthy calls st0 (pristine_healthy _ Hf)) as H1.
  pose proof (run_healthy more _ H1) as H2. fold st in H2.
  pose proof (run_keeps_entry more _ sid r H1 Hr) as Hr'. fold st in Hr'.
  split; [by rewrite Hr, Hr'|].
  assert (has_unkilled_process st sid = true) as Hg
    by (apply healthy_entry_unkilled; eauto).
  split; [by apply startServer_guarded|].
  rewrite restart_run_fires, startServer_guarded; [done|].
  pose proof (run_healthy (CRestart sid command wd :: pending) st H2) as H3.
  pose proof (run_keeps_entry (CRestart sid command wd :: pending) st sid r
                H2 Hr') as Hr3.
  change (run st (CRestart sid command wd :: pending))
    with (run (restartServer st sid command wd) pending) in H3, Hr3.
  destruct (restart_due_state_cases st sid command wd pending)
    as [[_ ->]|[_ ->]].
  - apply healthy_entry_unkilled; eauto.
  - apply healthy_entry_unkilled; [by eapply healthy_ext|by eexists].
Qed.

Lemma started_server_never_starts_again_witness :
  (restart_run
     (run (run Fleet.idle [CStart 1 Fleet.launch None])
        [CStop 1; CEvent (ChildExit 0 JNull); CEvent (GroupGone 4242);
         CFire (ForceKill 0)])
     1 Fleet.launch None []).1
  = Throw "Server is already running".
Proof.
  apply (started_server_never_starts_again Fleet.idle
           [CStart 1 Fleet.launch None]
           [CStop 1; CEvent (ChildExit 0 JNull); CEvent (GroupGone 4242);
            CFire (ForceKill 0)] 1 Fleet.launch None []).
  - by split.
  - by eexists.
Defined.

(** X20. A [stopServer] that throws has done nothing: no signal was sent,
    no timer armed and the state is the one before the call. *)
Theorem stopServer_failure_keeps_state (st : State) (sid : Z) (msg : string) :
  (stopServer st sid).1 = Throw msg → (stopServer st sid).2 = st.
Proof.
  unfold stopServer.
  destruct (processes_get st sid) as [[r info]|]; [|done].
  destruct (process info) as [p|]; [|done].
  destruct (killed p); [done|].
  by destruct (process_kill st (pid p) SIGTERM) as [[[]|m] st1].
Qed.

Lemma stopServer_failure_keeps_state_witness :
  (stopServer Fleet.exited 1).2 = Fleet.exited.
Proof.
  apply (stopServer_failure_keeps_state Fleet.exited 1
           "Failed to stop server: kill ESRCH").
  reflexivity.
Defined.

(** X21. After a successful [startServer], [getServerStatus] reports the
    server running with the pid that was returned, and as long as no exit
    is observed its uptime is the whole seconds elapsed since the start. *)
Theorem startServer_then_status (st st1 : State) (sid : Z) (command : string)
    (wd : option string) (res : StartResult) (dt : Z) :
  startServer st sid command wd = (Ok res, st1) →
  getServerStatus (step st1 (Elapse dt)) sid =
    {| status := "running"; uptime := dt / 1000; lastExitCode := None;
       rep_pid := Some (res_pid res); rep_startTime := Some (clock st) |} ∧
  res_startTime res = clock st.
Proof.
  unfold startServer.
  destruct (has_unkilled_process st sid); [done|].
  destruct (os_spawn st _ _) as [msg|p]; [done|].
  intros [= <- <-]. split; [|done].
  unfold getServerStatus, processes_get. simpl.
  rewrite lookup_insert_eq. simpl. rewrite lookup_insert_eq. simpl.
  do 2 f_equal. lia.
Qed.

Lemma startServer_then_status_witness :
  getServerStatus (step Fleet.running (Elapse 61500)) 1 =
    {| status := "running"; uptime := 61; lastExitCode := None;
       rep_pid := Some (Some 4242); rep_startTime := Some 1700000000000 |} ∧
  1700000000000 = 1700000000000.
Proof.
  apply (startServer_then_status Fleet.idle Fleet.running 1 Fleet.launch None
           {| res_pid := Some 4242; res_startTime := 1700000000000 |} 61500).
  reflexivity.
Defined.

(** The status of a server is read off its entry and the clock. *)
Lemma getServerStatus_ext (st st' : State) (sid : Z) :
  processes_get st' sid = processes_get st sid → clock st' = clock st →
  getServerStatus st' sid = getServerStatus st sid.
Proof. intros Hg Hc. unfold getServerStatus. by rewrite Hg, Hc. Qed.

(** X22. Starting or stopping one server does not change what
    [getServerStatus] reports for another, in any state reached from a new
    supervisor. *)
Theorem other_server_status_unchanged (st0 : State) (calls : list Call)
    (sid other : Z) (command : string) (wd : option string) :
  pristine st0 →
  other ≠ sid →
  let st := run st0 calls in
  getServerStatus (startServer st sid command wd).2 other
    = getServerStatus st other ∧
  getServerStatus (stopServer st sid).2 other = getServerStatus st other.
Proof.
  intros Hf Hne st.
  pose proof (run_healthy calls st0 (pristine_healthy _ Hf)) as [H1 H2].
  fold st in H1, H2. split.
  - apply getServerStatus_ext.
    + unfold processes_get.
      destruct (startServer_effect st sid command wd)
        as [[-> ->]|(r & p & _ & Hr & -> & ->)]; [done|].
      rewrite lookup_insert_ne by done.
      destruct (processes st !! other) as [r'|] eqn:Hr'; simpl; [|done].
      rewrite lookup_insert_ne; [done|]. intros ->.
      destruct (H2 other r' Hr') as [? ?]. congruence.
    + unfold startServer. destruct (has_unkilled_process st sid); [done|].
      by destruct (os_spawn st _ _).
  - destruct (stopServer_effect st sid) as [->|(r & n & ->)]; [done|].
    by apply getServerStatus_ext.
Qed.

Lemma other_server_status_unchanged_witness :
  getServerStatus
    (startServer (run Fleet.idle [CStart 1 Fleet.launch None]) 2
       "valheim_server -nographics" None).2 1
    = getServerStatus (run Fleet.idle [CStart 1 Fleet.launch None]) 1 ∧
  getServerStatus
    (stopServer (run Fleet.idle [CStart 1 Fleet.launch None]) 2).2 1
    = getServerStatus (run Fleet.idle [CStart 1 Fleet.launch None]) 1.
Proof.
  apply (other_server_status_unchanged Fleet.idle
           [CStart 1 Fleet.launch None] 2 1 "valheim_server -nographics" None).
  - by split.
  - lia.
Defined.

End LifecycleStart.

(** * Properties of the server routes *)
Section RoutesSpec.

Import Routes.

Lemma known_permission (perm : string) :
  perm ∈ ["view"; "control"] ↔ perm = "view" ∨ perm = "control".
Proof.
  rewrite !elem_of_cons, elem_of_nil. split; [|by intros [|]; auto].
  by intros [|[|[]]]; auto.
Qed.

(** What the access check answers when the user may not control. *)
Lemma checkServerAccess_no_control (db : Db) (userId serverId : Z) :
  ¬ may_control db userId serverId →
  checkServerAccess db userId serverId = None ∨
  checkServerAccess db userId serverId = Some None ∨
  ∃ row, checkServerAccess db userId serverId = Some (Some (row, "view")).
Proof.
  intros Hno. unfold checkServerAccess.
  destruct (failing db); [by left|]. right.
  destruct (servers db !! serverId) as [row|] eqn:Hrow; simpl; [|by left].
  case_bool_decide as Ho; [exfalso; apply Hno; exists row; auto|].
  destruct (user_server_access db !! (userId, serverId)) as [perm|] eqn:Hp;
    simpl; [|by left].
  destruct (decide (perm = "view")) as [->|Hv]; [right; by exists row|].
  exfalso. apply Hno. exists row. split; [done|]. right. by exists perm.
Qed.

Lemma with_access_refused {A} (db : Db) (userId serverId : Z) (otherwise : A)
    (k : ServerRow → Response * A) :
  ¬ may_control db userId serverId →
  (with_access db userId serverId refuse_view otherwise k).2 = otherwise ∧
  code (with_access db userId serverId refuse_view otherwise k).1
    ∈ [500; 404; 403]%Z.
Proof.
  intros Hno. unfold with_access.
  destruct (checkServerAccess_no_control db userId serverId Hno)
    as [->|[->|[row ->]]]; simpl; split; try done;
    rewrite !elem_of_cons; auto.
Qed.

(** X23. A user who neither owns a server nor holds a permission other
    than [view] for it cannot start, stop or restart it through the
    routes: each of the three answers 500, 404 or 403 and leaves the
    supervisor and the database as they were. *)
Theorem control_routes_need_permission (db : Db) (sup : Supervisor.State)
    (userId serverId : Z) (pending : list Supervisor.Call) :
  ¬ may_control db userId serverId →
  ((post_start db sup userId serverId).2 = (db, sup) ∧
   code (post_start db sup userId serverId).1 ∈ [500; 404; 403]%Z) ∧
  ((post_stop db sup userId serverId).2 = (db, sup) ∧
   code (post_stop db sup userId serverId).1 ∈ [500; 404; 403]%Z) ∧
  ((post_restart db sup userId serverId pending).2 = (db, sup) ∧
   code (post_restart db sup userId serverId pending).1 ∈ [500; 404; 403]%Z).
Proof.
  intros Hno. repeat split; by apply with_access_refused.
Qed.

Lemma viewer_may_not_control : ¬ may_control Tenants.db0 8 1.
Proof.
  intros (row & Hrow & [Ho|(perm & Hp & Hv)]);
    unfold Tenants.db0 in *; simpl in *.
  - apply lookup_singleton_Some in Hrow as [_ <-]. simpl in Ho. lia.
  - by apply lookup_insert_Some in Hp as [[_ <-]|[? _]].
Qed.

Lemma control_routes_need_permission_witness :
  post_start Tenants.db0 Fleet.idle 8 1
  = ({| code := 403; body := BError "Insufficient permissions" |},
     (Tenants.db0, Fleet.idle)).
Proof.
  pose proof (control_routes_need_permission Tenants.db0 Fleet.idle 8 1 []
                viewer_may_not_control) as [[Hst _] _].
  rewrite (surjective_pairing (post_start Tenants.db0 Fleet.idle 8 1)), Hst.
  reflexivity.
Defined.

(** X24. When the owner of a server grants [view] or [control] to another
    user, the route answers 200 and from then on the access check gives
    that user the server with the permission granted; the servers and the
    permissions of every other pair of user and server are unchanged.
    With [control] the user may then start, stop and restart the server,
    with [view] not. *)
Theorem owner_grants_access (db : Db) (owner serverId grantee : Z)
    (perm : string) (row : ServerRow) :
  failing db = false →
  servers db !! serverId = Some row →
  owner_id row = owner →
  grantee ≠ 0%Z → grantee ≠ owner →
  perm ∈ ["view"; "control"] →
  ∃ db',
    post_access db owner serverId (Some grantee) (Some perm) =
      ({| code := 200; body := BMessage "Access granted successfully" |}, db') ∧
    checkServerAccess db' grantee serverId = Some (Some (row, perm)) ∧
    servers db' = servers db ∧
    (∀ pair, pair ≠ (grantee, serverId) →
       user_server_access db' !! pair = user_server_access db !! pair) ∧
    (may_control db' grantee serverId ↔ perm = "control").
Proof.
  intros Hf Hrow Ho Hg Hne Hperm.
  assert (perm ≠ "") as Hnonempty
    by (by intros ->; apply known_permission in Hperm as [|]).
  eexists. split; [|split; [|split; [|split]]].
  - unfold post_access, with_access, checkServerAccess.
    rewrite (bool_decide_eq_false_2 _ Hg), (bool_decide_eq_false_2 _ Hnonempty).
    simpl. rewrite (bool_decide_eq_true_2 _ Hperm). simpl.
    rewrite Hf, Hrow. simpl. rewrite (bool_decide_eq_true_2 _ Ho).
    unfold refuse_non_owner. simpl. reflexivity.
  - unfold checkServerAccess. simpl. rewrite Hf, Hrow. simpl.
    rewrite bool_decide_eq_false_2 by congruence.
    by rewrite lookup_insert_eq.
  - done.
  - intros pair Hpair. simpl. by rewrite lookup_insert_ne.
  - split.
    + intros (row' & Hrow' & [Ho'|(p & Hp & Hv)]); simpl in *.
      * congruence.
      * rewrite lookup_insert_eq in Hp. injection Hp as <-.
        by apply known_permission in Hperm as [|].
    + intros ->. exists row. split; [done|]. right. exists "control".
      simpl. by rewrite lookup_insert_eq.
Qed.

Lemma owner_grants_access_witness :
  ∃ db',
    post_access Tenants.db0 7 1 (Some 10%Z) (Some "control") =
      ({| code := 200; body := BMessage "Access granted successfully" |}, db') ∧
    may_control db' 10 1.
Proof.
  destruct (owner_grants_access Tenants.db0 7 1 10 "control"
              {| name := "Survival"; game_type := "minecraft";
                 host := "localhost"; port := 25565; status := "stopped";
                 command := Fleet.launch; working_directory := None;
                 owner_id := 7 |})
    as (db' & Hrun & _ & _ & _ & Hmay); try reflexivity; try lia.
  - compute_done.
  - exists db'. split; [exact Hrun|]. by apply Hmay.
Defined.

(** The access route keeps the permissions on record to the two it
    files. *)
Lemma post_access_granted_only (db : Db) (userId serverId : Z)
    (target : option Z) (permission : option string) :
  granted_only db →
  granted_only (post_access db userId serverId target permission).2.
Proof.
  intros Hdb. unfold post_access.
  destruct target as [grantee|], permission as [perm|]; try done.
  destruct (_ || _); [done|]. case_bool_decide as Hperm; simpl; [|done].
  unfold with_access. destruct (checkServerAccess _ _ _) as [[[row p]|]|];
    try done.
  destruct (refuse_non_owner _ p); [done|]. simpl.
  intros pair perm'. simpl.
  intros [[_ <-]|[_ Hin]]%lookup_insert_Some; [|by eapply Hdb].
  by apply known_permission.
Qed.

(** X25. With the permissions on record being those the access route
    files, only the owner of a server can delete it or grant access to it:
    for any other user both routes leave the database and the supervisor
    as they were. *)
Theorem only_owner_deletes_or_grants (db : Db) (sup : Supervisor.State)
    (userId serverId : Z) (target : option Z) (permission : option string) :
  granted_only db →
  ¬ owns db userId serverId →
  (delete_server db sup userId serverId).2 = (db, sup) ∧
  code (delete_server db sup userId serverId).1 ≠ 200%Z ∧
  (post_access db userId serverId target permission).2 = db ∧
  code (post_access db userId serverId target permission).1 ≠ 200%Z.
Proof.
  intros Hdb Hno.
  assert (∀ A (otherwise : A) what k,
            (with_access db userId serverId (refuse_non_owner what)
               otherwise k).2 = otherwise ∧
            code (with_access db userId serverId (refuse_non_owner what)
                    otherwise k).1 ≠ 200%Z) as Hacc.
  { intros A otherwise what k. unfold with_access, checkServerAccess.
    destruct (failing db); [done|].
    destruct (servers db !! serverId) as [row|] eqn:Hrow; simpl; [|done].
    case_bool_decide as Ho; [exfalso; apply Hno; by exists row|].
    destruct (user_server_access db !! (userId, serverId)) as [perm|] eqn:Hp;
      simpl; [|done].
    unfold refuse_non_owner.
    rewrite bool_decide_eq_true_2; [done|].
    by destruct (Hdb _ _ Hp) as [->| ->]. }
  split; [apply Hacc|]. split; [apply Hacc|].
  unfold post_access.
  destruct target as [grantee|], permission as [perm|]; try done.
  destruct (_ || _); [done|]. destruct (negb _); [done|].
  split; apply Hacc.
Qed.

Lemma controller_does_not_own : ¬ owns Tenants.db0 9 1.
Proof.
  intros (row & Hrow & Ho). unfold Tenants.db0 in *; simpl in *.
  apply lookup_singleton_Some in Hrow as [_ <-]. simpl in Ho. lia.
Qed.

Lemma granted_only_db0 : granted_only Tenants.db0.
Proof.
  intros pair perm Hp. unfold Tenants.db0 in Hp; simpl in Hp.
  apply lookup_insert_Some in Hp as [[_ <-]|[_ Hp]]; [by left|].
  apply lookup_singleton_Some in Hp as [_ <-]. by right.
Qed.

Lemma only_owner_deletes_or_grants_witness :
  (delete_server Tenants.db0 Fleet.running 9 1).2
  = (Tenants.db0, Fleet.running).
Proof.
  apply (only_owner_deletes_or_grants Tenants.db0 Fleet.running 9 1
           (Some 10%Z) (Some "control") granted_only_db0
           controller_does_not_own).
Defined.

End RoutesSpec.

(** ** Signals, restarts of absent servers and presence *)
Section LifecycleSignals.

Import Supervisor Lifecycle.

Local Open Scope Z_scope.

(** A signal of [stopServer] goes to the pid of the handle on record. *)
Lemma stopServer_signal (st : State) (sid : Z) :
  (stopServer st sid).2 = st ∨
  ∃ r info p n,
    heap st !! r = Some info ∧ process info = Some p ∧ pid p = Some n ∧
    (stopServer st sid).2
    = setTimeout (log_signal st n SIGTERM) (ForceKill r) 10000.
Proof.
  unfold stopServer, process_kill, processes_get.
  destruct (processes st !! sid) as [r|]; simpl; [|by left].
  destruct (heap st !! r) as [info|] eqn:Hi; simpl; [|by left].
  destruct (process info) as [p|] eqn:Hp; [|by left].
  destruct (killed p); [by left|].
  destruct (pid p) as [n|] eqn:Hn; [|by left].
  case_bool_decide; [|by left]. right. by exists r, info, p, n.
Qed.

Lemma fire_signal (st : State) (r : nat) :
  (fire st (ForceKill r)).2 = st ∨
  ∃ info p n,
    heap st !! r = Some info ∧ process info = Some p ∧ pid p = Some n ∧
    (fire st (ForceKill r)).2 = log_signal st n SIGKILL.
Proof.
  unfold fire, process_kill, not_killed.
  destruct (heap st !! r) as [info|] eqn:Hi; [|by left].
  destruct (process info) as [p|] eqn:Hp; [|by left].
  destruct (killed p); [by left|]. simpl.
  destruct (pid p) as [n|] eqn:Hn; [|by left].
  case_bool_decide; [|by left]. right. by exists info, p, n.
Qed.

(** The handles only grow: what a call does keeps every object of the heap
    with its process. *)
Lemma perform_keeps_process (st : State) (c : Call) (r : nat)
    (info : ProcessInfo) :
  heap st !! r = Some info →
  ∃ info', heap (perform st c) !! r = Some info' ∧
           process info' = process info.
Proof.
  intros Hi.
  assert (∀ sid cmd wd, ∃ info',
            heap (startServer st sid cmd wd).2 !! r = Some info' ∧
            process info' = process info) as Hstart.
  { intros sid cmd wd.
    destruct (startServer_effect st sid cmd wd)
      as [[-> _]|(r' & p & _ & Hr' & -> & _)]; [by exists info|].
    exists info. rewrite lookup_insert_ne by congruence. done. }
  destruct c as [sid cmd wd|sid|sid cmd wd|e|[r'|sid cmd wd]];
    unfold perform.
  - apply Hstart.
  - rewrite (proj1 (stopServer_frame st sid)). by exists info.
  - rewrite (proj1 (restartServer_frame st sid cmd wd)). by exists info.
  - pose proof (proj2 (proj2 (step_frame st e)) r) as He.
    rewrite Hi in He. simpl in He.
    destruct (heap (step st e) !! r) as [info'|]; [|done].
    injection He as He. by exists info'.
  - rewrite (proj1 (fire_frame st r')). by exists info.
  - destruct (Hstart sid cmd wd) as (info' & H1 & H2). unfold fire.
    destruct (startServer st sid cmd wd). by exists info'.
Qed.

Lemma signals_own_grow (st st' : State) :
  (∀ r info, heap st !! r = Some info →
     ∃ info', heap st' !! r = Some info' ∧ process info' = process info) →
  (∀ a, a ∈ signals st' → a ∈ signals st ∨
     ∃ r info p, heap st !! r = Some info ∧ process info = Some p ∧
                 pid p = Some a.1) →
  signals_own st → signals_own st'.
Proof.
  intros Hheap Hsig Hst n sig Hin.
  assert (∃ r info p, heap st !! r = Some info ∧ process info = Some p ∧
                      pid p = Some n) as (r & info & p & Hi & Hp & Hn).
  { destruct (Hsig _ Hin) as [Hold|H]; [by eapply Hst|done]. }
  destruct (Hheap r info Hi) as (info' & Hi' & Hp').
  exists r, info', p. by rewrite Hp'.
Qed.

Lemma perform_signals_own (st : State) (c : Call) :
  signals_own st → signals_own (perform st c).
Proof.
  apply signals_own_grow; [intros r info; apply perform_keeps_process|].
  intros a.
  assert (∀ sid cmd wd, signals (startServer st sid cmd wd).2 = signals st)
    as Hstart.
  { intros sid cmd wd. unfold startServer.
    destruct (has_unkilled_process st sid); [done|].
    by destruct (os_spawn st _ _). }
  assert (∀ sid, a ∈ signals (stopServer st sid).2 →
            a ∈ signals st ∨
            ∃ r info p, heap st !! r = Some info ∧ process info = Some p ∧
                        pid p = Some a.1) as Hstop.
  { intros sid.
    destruct (stopServer_signal st sid)
      as [->|(r & info & p & n & Hi & Hp & Hn & ->)]; [by left|].
    simpl. intros [?|Ha%list_elem_of_singleton]%elem_of_app; [by left|].
    subst a. right. by exists r, info, p. }
  destruct c as [sid cmd wd|sid|sid cmd wd|e|[r'|sid cmd wd]];
    unfold perform.
  - rewrite Hstart. by left.
  - apply Hstop.
  - unfold restartServer.
    destruct (has_unkilled_process st sid); [apply Hstop|by left].
  - destruct e; by left.
  - destruct (fire_signal st r')
      as [->|(info & p & n & Hi & Hp & Hn & ->)]; [by left|].
    simpl. intros [?|Ha%list_elem_of_singleton]%elem_of_app; [by left|].
    subst a. right. by exists r', info, p.
  - unfold fire. pose proof (Hstart sid cmd wd) as Hs.
    destruct (startServer st sid cmd wd). simpl in *. rewrite Hs. by left.
Qed.

(** The answers of the operating system are fixed, and the record of the
    spawn calls only grows. *)
Lemma startServer_spawned (st : State) (sid : Z) (cmd : string)
    (wd : option string) :
  os_spawn (startServer st sid cmd wd).2 = os_spawn st ∧
  spawned st `prefix_of` spawned (startServer st sid cmd wd).2.
Proof.
  unfold startServer. destruct (has_unkilled_process st sid); [done|].
  destruct (os_spawn st _ _); simpl; (split; [done|by apply prefix_app_r]).
Qed.

Lemma perform_spawned (st : State) (c : Call) :
  os_spawn (perform st c) = os_spawn st ∧
  spawned st `prefix_of` spawned (perform st c).
Proof.
  destruct c as [sid cmd wd|sid|sid cmd wd|e|[r'|sid cmd wd]];
    unfold perform.
  - apply startServer_spawned.
  - by destruct (stopServer_effect st sid) as [->|(r & n & ->)].
  - destruct (restartServer_frame st sid cmd wd) as (_ & _ & ->).
    split; [|done]. unfold restartServer. simpl.
    destruct (has_unkilled_process st sid); [|done].
    by destruct (stopServer_effect st sid) as [->|(r & n & ->)].
  - by destruct e.
  - unfold fire. destruct (heap st !! r') as [info|]; [|done].
    destruct (not_killed info); [|done]. unfold process_kill.
    destruct (process info ≫= pid) as [n|]; [|done]. simpl.
    by case_bool_decide.
  - unfold fire. pose proof (startServer_spawned st sid cmd wd) as H.
    by destruct (startServer st sid cmd wd).
Qed.

(** A handle filed by [startServer] is the answer to the spawn call it has
    just recorded. *)
Lemma startServer_handles_spawned (st : State) (sid : Z) (cmd : string)
    (wd : option string) :
  handles_spawned st → handles_spawned (startServer st sid cmd wd).2.
Proof.
  intros Hst r info p. unfold startServer.
  destruct (has_unkilled_process st sid); [apply Hst|].
  destruct (os_spawn st _ _) as [msg|q] eqn:Hos; simpl.
  - intros Hi Hp. destruct (Hst r info p Hi Hp) as (i & call & Hc & Ho).
    exists i, call. split; [|done]. by apply lookup_app_l_Some.
  - destruct (decide (r = fresh (dom (heap st)))) as [->|Hne].
    + rewrite lookup_insert_eq. intros [= <-] [= <-]. simpl.
      eexists (List.length (spawned st)), _. split; [|exact Hos].
      by rewrite lookup_app_r, Nat.sub_diag.
    + rewrite lookup_insert_ne by done. intros Hi Hp.
      destruct (Hst r info p Hi Hp) as (i & call & Hc & Ho).
      exists i, call. split; [|done]. by apply lookup_app_l_Some.
Qed.

Lemma perform_handles_spawned (st : State) (c : Call) :
  handles_spawned st → handles_spawned (perform st c).
Proof.
  intros Hst.
  assert (∀ st', os_spawn st' = os_spawn st → spawned st' = spawned st →
            (∀ r, process <$> heap st' !! r = process <$> heap st !! r) →
            handles_spawned st') as Hext.
  { intros st' Ho Hs Hh r info p Hi Hp. specialize (Hh r).
    rewrite Hi in Hh. simpl in Hh.
    destruct (heap st !! r) as [info0|] eqn:Hi0; [|done].
    injection Hh as Hh. rewrite Ho, Hs. apply (Hst r info0); congruence. }
  destruct c as [sid cmd wd|sid|sid cmd wd|e|[r'|sid cmd wd]];
    unfold perform.
  - by apply startServer_handles_spawned.
  - destruct (stopServer_effect st sid) as [->|(r & n & ->)]; [done|].
    by apply Hext.
  - destruct (restartServer_frame st sid cmd wd) as (Hh & _ & Hs).
    apply Hext; [|done|by intros r; rewrite Hh].
    apply (perform_spawned st (CRestart sid cmd wd)).
  - destruct (step_frame st e) as (_ & Hs & Hh).
    apply Hext; [by destruct e|done|done].
  - apply Hext.
    + apply (perform_spawned st (CFire (ForceKill r'))).
    + unfold fire. destruct (heap st !! r') as [info|]; [|done].
      destruct (not_killed info); [|done]. unfold process_kill.
      destruct (process info ≫= pid) as [n|]; [|done]. simpl.
      by case_bool_decide.
    + intros r. by rewrite (proj1 (fire_frame st r')).
  - pose proof (startServer_handles_spawned st sid cmd wd Hst) as H.
    unfold fire. by destruct (startServer st sid cmd wd).
Qed.

Lemma run_handles_spawned (calls : list Call) (st : State) :
  handles_spawned st → handles_spawned (run st calls).
Proof.
  revert st. induction calls as [|c calls IH]; intros st Hst; [done|].
  by apply IH, perform_handles_spawned.
Qed.

Lemma run_os_spawn (calls : list Call) (st : State) :
  os_spawn (run st calls) = os_spawn st.
Proof.
  revert st. induction calls as [|c calls IH]; intros st; [done|].
  simpl. unfold run in IH. rewrite IH. apply perform_spawned.
Qed.

Lemma run_signals_own (calls : list Call) (st : State) :
  signals_own st → signals_own (run st calls).
Proof.
  revert st. induction calls as [|c calls IH]; intros st Hst; [done|].
  by apply IH, perform_signals_own.
Qed.

(** X26. Every signal the supervisor sends is addressed to a pid that the
    operating system returned for one of the supervisor's own spawn calls
    and whose handle the supervisor still holds: in every state reached
    from a new supervisor, each signal on record carries the pid of such a
    handle. Whether the process spawned still runs under that pid is not
    part of it: handles are never removed and no test of [stopServer] or
    of the fallback reads anything but the [killed] flag. *)
Theorem signals_only_to_spawned_pids (st0 : State) (calls : list Call)
    (n : Z) (sig : Signal) :
  pristine st0 → signals st0 = [] →
  (n, sig) ∈ signals (run st0 calls) →
  ∃ r info p i call,
    heap (run st0 calls) !! r = Some info ∧ process info = Some p ∧
    pid p = Some n ∧
    spawned (run st0 calls) !! i = Some call ∧
    os_spawn st0 i call = Spawned (Some n).
Proof.
  intros [Hh0 _] Hs0 Hin.
  assert (signals_own st0) as H0.
  { intros n' sig' Hin'. rewrite Hs0 in Hin'. by apply elem_of_nil in Hin'. }
  assert (handles_spawned st0) as H1.
  { intros r info p Hi. by rewrite Hh0 in Hi. }
  destruct (run_signals_own calls st0 H0 n sig Hin) as (r & info & p & Hi & Hp & Hn).
  destruct (run_handles_spawned calls st0 H1 r info p Hi Hp)
    as (i & call & Hc & Ho).
  exists r, info, p, i, call. by rewrite <- (run_os_spawn calls st0), Ho, Hn.
Qed.

Lemma signals_only_to_spawned_pids_witness :
  ∃ r info p i call,
    heap (run Fleet.idle [CStart 1 Fleet.launch None; CStop 1]) !! r
    = Some info ∧ process info = Some p ∧ pid p = Some 4242 ∧
    spawned (run Fleet.idle [CStart 1 Fleet.launch None; CStop 1]) !! i
    = Some call ∧
    os_spawn Fleet.idle i call = Spawned (Some 4242).
Proof.
  apply (signals_only_to_spawned_pids Fleet.idle
           [CStart 1 Fleet.launch None; CStop 1] 4242 SIGTERM).
  - by split.
  - reflexivity.
  - compute_done.
Defined.

(** A sequence of events is run one step after the other. *)
Lemma run_events (events : list Event) (st : State) :
  run st (CEvent <$> events) = foldl step st events.
Proof.
  revert st. induction events as [|e events IH]; intros st; [done|].
  simpl. apply IH.
Qed.

(** Events leave alone the working directory of the supervisor and the
    answers of the operating system, and move the clock by the time that
    passes, from wherever it stands. *)
Lemma events_os (events : list Event) (st : State) :
  os_spawn (foldl step st events) = os_spawn st ∧
  process_cwd (foldl step st events) = process_cwd st.
Proof.
  revert st. induction events as [|e events IH]; intros st; simpl; [done|].
  destruct (IH (step st e)) as [-> ->]. by destruct e.
Qed.

Lemma events_clock (events : list Event) (st st' : State) :
  clock st' = clock st →
  clock (foldl step st' events) = clock (foldl step st events).
Proof.
  revert st st'. induction events as [|e events IH]; intros st st' Hc; [done|].
  simpl. apply IH. destruct e; simpl; congruence.
Qed.

Lemma restartServer_os (st : State) (sid : Z) (command : string)
    (wd : option string) :
  os_spawn (restartServer st sid command wd) = os_spawn st ∧
  process_cwd (restartServer st sid command wd) = process_cwd st.
Proof.
  unfold restartServer. simpl.
  destruct (has_unkilled_process st sid); [|done].
  by destruct (stopServer_effect st sid) as [->|(r & n & ->)].
Qed.

(** X27. Restarting a server that has no entry starts it, when nothing but
    events (output, exits, time passing) comes while the timer is pending:
    the timer that [restartServer] armed fires when 3000 ms have passed, or
    later when the events took longer; the command is then spawned, and
    when the operating system starts the process the restart settles with
    its pid and with the moment the timer fired as start time. *)
Theorem restart_of_absent_server_starts_it (st : State) (sid : Z)
    (command : string) (wd : option string) (events : list Event)
    (p : option Z) :
  processes st !! sid = None →
  let call := {| executable := hd "" (split " " command);
                 args := tl (split " " command);
                 cwd := default (process_cwd st) wd;
                 detached := true |} in
  let pending := CEvent <$> events in
  let fired :=
    Z.max (clock st + 3000) (clock (foldl step st events)) in
  os_spawn st (List.length (spawned st)) call = Spawned p →
  clock (restart_due_state st sid command wd pending) = fired ∧
  ∃ st',
    restart_run st sid command wd pending =
      (Ok {| res_pid := p; res_startTime := fired |}, st') ∧
    spawned st' = (spawned st ++ [call])%list ∧
    is_Some (processes st' !! sid).
Proof.
  intros Hnone call pending fired Hos.
  set (st1 := restartServer st sid command wd).
  set (due := restart_due_state st sid command wd pending).
  assert (run st1 pending = foldl step st1 events) as Hrun
    by apply run_events.
  assert (clock (foldl step st1 events) = clock (foldl step st events)) as Hck
    by apply events_clock, restartServer_clock.
  assert (clock due = fired) as Hc.
  { subst due fired.
    destruct (restart_due_state_cases st sid command wd pending)
      as [[Hle ->]|[Hlt ->]]; fold st1 in Hle || fold st1 in Hlt;
      fold st1; rewrite Hrun, Hck in *; simpl; lia. }
  assert (processes due = processes st ∧ spawned due = spawned st ∧
          os_spawn due = os_spawn st ∧ process_cwd due = process_cwd st)
    as (Hpr & Hsp & Hos' & Hcwd).
  { destruct (foldl_step_frame events st1) as (Hp1 & Hs1 & _).
    destruct (events_os events st1) as [Ho1 Hc1].
    destruct (restartServer_frame st sid command wd) as (_ & Hp2 & Hs2).
    destruct (restartServer_os st sid command wd) as [Ho2 Hc2].
    fold st1 in Hp2, Hs2, Ho2, Hc2.
    subst due.
    destruct (restart_due_state_cases st sid command wd pending)
      as [[_ ->]|[_ ->]]; fold st1; rewrite Hrun; simpl;
      by rewrite Hp1, Hs1, Ho1, Hc1, Hp2, Hs2, Ho2, Hc2. }
  assert (has_unkilled_process due sid = false) as Hg.
  { unfold has_unkilled_process, processes_get. by rewrite Hpr, Hnone. }
  split; [done|].
  destruct (startServer_spawns due sid command wd p Hg)
    as (st' & r & Hst & _ & Hp & _ & Hs).
  { by rewrite Hsp, Hos', Hcwd. }
  exists st'. rewrite restart_run_fires. fold due. rewrite Hst, Hc.
  split; [done|]. split; [by rewrite Hs, Hsp, Hcwd|].
  rewrite Hp, lookup_insert_eq. by eexists.
Qed.

Lemma restart_of_absent_server_starts_it_witness :
  clock (restart_due_state Fleet.idle 1 Fleet.launch None
           (CEvent <$> [Elapse 7000])) = 1700000007000 ∧
  ∃ st',
    restart_run Fleet.idle 1 Fleet.launch None (CEvent <$> [Elapse 7000]) =
      (Ok {| res_pid := Some 4242; res_startTime := 1700000007000 |}, st').
Proof.
  destruct (restart_of_absent_server_starts_it Fleet.idle 1 Fleet.launch None
              [Elapse 7000] (Some 4242)) as (Hc & st' & Hrun & _);
    try reflexivity.
  split; [exact Hc|]. by exists st'.
Defined.

End LifecycleSignals.

Section PresenceSpec.

Import Panel.

Local Open Scope Z_scope.

(** X28. The listener of the agent's presence reports the agent online
    exactly when the stored flag is truthy and the last heartbeat is less
    than 90000 ms old; then the message is [Agent online], otherwise
    [Agent offline]. A record without a heartbeat counts as one of time
    0. *)
Theorem agent_status_online_iff (now : Z) (p : Presence) :
  (truthy (rep_online (onAgentStatus now (Some p))) = true ↔
   truthy (online p) = true ∧ now - default 0 (lastHeartbeat p) < 90000) ∧
  rep_message (onAgentStatus now (Some p)) =
    (if truthy (rep_online (onAgentStatus now (Some p))) then "Agent online"
     else "Agent offline") ∧
  rep_lastHeartbeat (onAgentStatus now (Some p))
    = Some (default 0 (lastHeartbeat p)).
Proof.
  simpl. unfold js_and. split; [|done].
  destruct (truthy (online p)) eqn:Ht; simpl.
  - rewrite Z.ltb_lt. by split; [|intros [_ ?]].
  - rewrite Ht. by split; [|intros [? _]].
Qed.

End PresenceSpec.
